(** * Phase-aware k6 reporting framework: a shallow embedding

    Source: [src/011-reporting-framework.js].  The file has four parts that
    matter here: the duration parser, the phase resolver, the metric
    registry with its recorder, and the aggregator that turns the
    end-of-test summary into table rows.

    Conventions of the embedding.
    - A JavaScript number is an exact rational ([Q]) or, where the code only
      ever produces integers (parsed durations, indices, HTTP status codes),
      an integer ([Z], [nat]).  Rounding of IEEE doubles is not modelled.
    - [undefined]/[null] is [None]; a JavaScript object used as a dictionary
      is a [gmap] over its own properties (nothing is inherited from
      [Object.prototype]).
    - [Date.now()] is an explicit argument.
    - A k6 [Counter]/[Trend] is identified by its metric name; [add] sends a
      sample to the engine's store under that name, which is what the
      end-of-test summary [data.metrics] is keyed by.  The registry object
      built by [initializeMetrics] is never written after initialisation, so
      the recorder is a function of the store alone. *)

From Stdlib Require Import ZArith QArith Qround Qabs Qminmax Lqa Lia Ascii String.
From Equations.Prop Require Import Equations Logic.
From stdpp Require Import base option list gmap strings pretty.

Local Open Scope Z_scope.

(** ** Duration parser (lines 658-677) *)

Module Duration.

(** The character classes of the pattern [/(\d+)([smh])/g]. *)
Definition is_digit (c : ascii) : bool :=
  match Ascii.is_nat c with Some _ => true | None => false end.

Definition digit_val (c : ascii) : Z :=
  match Ascii.is_nat c with Some d => Z.of_nat d | None => 0 end.

Definition is_unit (c : ascii) : bool :=
  match c with
  | "s"%char | "m"%char | "h"%char => true
  | _ => false
  end.

(** One capture of the pattern: [match[1]], [match[2]] and the input that
    follows the match (the text from the new [lastIndex] on). *)
Record Match := mkMatch { digits : string; unit : ascii; rest : string }.

(** [\d+[smh]] anchored at the head of [s], as a backtracking matcher runs
    it: [\d+] is greedy, so after one digit it first tries to take more
    digits, and only when that fails does it give the digits back and ask
    for the unit letter. *)
Fixpoint match_here (s : string) : option Match :=
  match s with
  | EmptyString => None
  | String c s' =>
      if is_digit c then
        match match_here s' with
        | Some m => Some (mkMatch (String c (digits m)) (unit m) (rest m))
        | None =>
            match s' with
            | String u r =>
                if is_unit u then Some (mkMatch (String c EmptyString) u r)
                else None
            | EmptyString => None
            end
        end
      else None
  end.

(** [regex.exec(duration)] for the global pattern: the leftmost position at
    or after [lastIndex] where the pattern matches.  The argument is the
    input from [lastIndex] on; the pattern has no anchor or look-behind, so
    nothing before [lastIndex] is consulted. *)
Fixpoint exec (s : string) : option Match :=
  match match_here s with
  | Some m => Some m
  | None =>
      match s with
      | EmptyString => None
      | String _ s' => exec s'
      end
  end.

(** [parseInt(match[1])] on a capture of [\d+]: base ten, most significant
    digit first. *)
Definition parseInt (ds : string) : Z :=
  let fix go (acc : Z) (s : string) : Z :=
    match s with
    | EmptyString => acc
    | String c s' => go (acc * 10 + digit_val c) s'
    end
  in go 0 ds.

(** The [switch (unit)] of the loop body. *)
Definition add_unit (totalSeconds value : Z) (u : ascii) : Z :=
  match u with
  | "s"%char => totalSeconds + value
  | "m"%char => totalSeconds + value * 60
  | "h"%char => totalSeconds + value * 3600
  | _ => totalSeconds
  end.

Lemma match_here_shorter s m :
  match_here s = Some m → (String.length (rest m) < String.length s)%nat.
Proof.
  revert m. induction s as [|c s IH]; intros m; simpl; [discriminate|].
  destruct (is_digit c); [|discriminate].
  destruct (match_here s) as [m'|] eqn:E.
  - intros [= <-]. simpl. specialize (IH _ eq_refl). lia.
  - destruct s as [|u r]; [discriminate|].
    destruct (is_unit u); [|discriminate].
    intros [= <-]. simpl. lia.
Qed.

Lemma exec_shorter s m :
  exec s = Some m → (String.length (rest m) < String.length s)%nat.
Proof.
  revert m. induction s as [|c s IH]; intros m; simpl.
  - discriminate.
  - destruct (is_digit c); [|intros H; apply IH in H; lia].
    destruct (match_here s) as [m'|] eqn:E.
    + intros [= <-]. simpl. apply match_here_shorter in E. lia.
    + destruct s as [|u r].
      * simpl. discriminate.
      * destruct (is_unit u).
        -- intros [= <-]. simpl. lia.
        -- intros H. apply IH in H. simpl in *. lia.
Qed.

(** The [while ((match = regex.exec(duration)) !== null)] loop.  The state
    is the unread input and the running [totalSeconds]. *)
Equations? parse_loop (s : string) (totalSeconds : Z) : Z
  by wf (String.length s) lt :=
  parse_loop s totalSeconds with inspect (exec s) := {
    | exist _ (Some m) Hm =>
        parse_loop (rest m) (add_unit totalSeconds (parseInt (digits m)) (unit m))
    | exist _ None _ => totalSeconds }.
Proof. by apply exec_shorter. Qed.

(** [parseDuration(duration)].  [None] is an [undefined] argument;
    [!duration] holds for it and for the empty string. *)
Definition parseDuration (duration : option string) : Z :=
  match duration with
  | None => 0
  | Some d =>
      if decide (d = "") then 0
      else if decide (d = "0s") then 0
      else parse_loop d 0
  end.

(** *** What the parser is said to compute

    A duration string read as the spec reads it: a sequence of
    [<integer><unit>] tokens, each possibly preceded by text that is not a
    token, and some trailing text. *)

(** Text in which no digit is directly followed by a unit letter. *)
Fixpoint no_token (j : string) : bool :=
  match j with
  | EmptyString => true
  | String c j' =>
      (if is_digit c then
         match j' with
         | String d _ => negb (is_unit d)
         | EmptyString => true
         end
       else true) && no_token j'
  end.

(** Ignored text in front of a token: it holds no token and does not end in
    a digit (a digit there would belong to the token's number). *)
Fixpoint ignored (j : string) : bool :=
  match j with
  | EmptyString => true
  | String c j' =>
      (if is_digit c then
         match j' with
         | String d _ => negb (is_unit d)
         | EmptyString => false
         end
       else true) && ignored j'
  end.

Fixpoint all_digits (ds : string) : bool :=
  match ds with
  | EmptyString => true
  | String c ds' => is_digit c && all_digits ds'
  end.

Record Token := mkToken { before : string; number : string; letter : ascii }.

Definition token_ok (t : Token) : bool :=
  ignored (before t) && all_digits (number t)
  && negb (String.eqb (number t) "") && is_unit (letter t).

Fixpoint render (ts : list Token) (trailing : string) : string :=
  match ts with
  | [] => trailing
  | t :: ts' =>
      before t +:+ number t +:+ String (letter t) (render ts' trailing)
  end.

Definition unit_seconds (u : ascii) : Z :=
  match u with
  | "s"%char => 1
  | "m"%char => 60
  | "h"%char => 3600
  | _ => 0
  end.

Definition token_seconds (t : Token) : Z :=
  parseInt (number t) * unit_seconds (letter t).

Definition tokens_seconds (ts : list Token) : Z :=
  foldr (λ t acc, token_seconds t + acc) 0 ts.

End Duration.

Import Duration.

(** ** Phase resolver (lines 628-651) *)

Module Phases.

(** One entry of [config.phases]; [duration] is a duration string. *)
Record Phase := mkPhase {
  phase_name : option string;
  duration : option string;
  target : Z
}.

(** One entry of [scenarioConfig]. *)
Record ScenarioConfig := mkScenarioConfig {
  name : option string;
  startTime : option string;
  phases : option (list Phase);
  gracefulRampDown : option string;
  gracefulStop : option string
}.

(** [s || d] on an optional string: the empty string is falsy too. *)
Definition or_string (s : option string) (d : string) : string :=
  match s with
  | Some x => if decide (x = "") then d else x
  | None => d
  end.

(** [scenarioElapsed] of [getCurrentPhase]: seconds since the test started,
    less the scenario's start offset.  [now] is the value of [Date.now()]
    and [testStartTime] the timestamp taken in [setup], both in
    milliseconds. *)
Definition scenarioElapsed (config : ScenarioConfig) (testStartTime now : Z) : Q :=
  let elapsedMs := now - testStartTime in
  let elapsedSeconds := (inject_Z elapsedMs / 1000)%Q in
  let scenarioStartOffset := parseDuration (Some (or_string (startTime config) "0s")) in
  (elapsedSeconds - inject_Z scenarioStartOffset)%Q.

(** The [for (let i = 0; i < config.phases.length; i++)] loop, entered at
    index [i] with the phases from [i] on and the running
    [cumulativeDuration]. *)
Fixpoint phase_loop (elapsed : Q) (rest : list Phase) (i : nat)
    (cumulativeDuration : Z) : option nat :=
  match rest with
  | [] => None
  | p :: rest' =>
      let phaseDuration := parseDuration (duration p) in
      if Qlt_le_dec elapsed (inject_Z (cumulativeDuration + phaseDuration))
      then Some i
      else phase_loop elapsed rest' (S i) (cumulativeDuration + phaseDuration)
  end.

(** [getCurrentPhase(scenarioName, scenarioConfig, testStartTime)]; the
    result [None] is [null]. *)
Definition getCurrentPhase (scenarioName : string)
    (scenarioConfig : gmap string ScenarioConfig)
    (testStartTime now : Z) : option nat :=
  match scenarioConfig !! scenarioName with
  | None => None
  | Some config =>
      match phases config with
      | None => None
      | Some ps =>
          let elapsed := scenarioElapsed config testStartTime now in
          if Qlt_le_dec elapsed 0 then None
          else phase_loop elapsed ps 0 0
      end
  end.

(** Seconds from the scenario's start to the end of phase [i]: the sum of
    the durations of phases [0..i]. *)
Fixpoint cumulative_through (ps : list Phase) (i : nat) : Z :=
  match ps with
  | [] => 0
  | p :: ps' =>
      parseDuration (duration p)
      + match i with
        | O => 0
        | S i' => cumulative_through ps' i'
        end
  end.

(** The sum of all phase durations. *)
Definition total_duration (ps : list Phase) : Z :=
  foldr (λ p acc, parseDuration (duration p) + acc) 0 ps.

(** The configuration of the spec's example: phases of one and two minutes,
    starting at ["0s"]. *)
Definition example_config : gmap string ScenarioConfig :=
  {[ "load" :=
       mkScenarioConfig (Some "Load") (Some "0s")
         (Some [mkPhase (Some "ramp") (Some "1m") 10;
                mkPhase (Some "hold") (Some "2m") 20])
         (Some "30s") (Some "30s") ]}.

End Phases.

Import Phases.

(** ** Metric registry and recorder (lines 11-59, 594-618) *)

Module Metrics.

(** The status codes that get a counter of their own. *)
Definition statusCodes_tracked : list Z :=
  [400; 401; 403; 404; 500; 502; 503; 504].

(** The metric names of the template literals.  [scenario_key] is
    [`${api}_${scenario}`] and [phase_key] is
    [`${api}_${scenario}_phase${phaseIndex}`]. *)
Definition scenario_key (api scenario : string) : string :=
  api +:+ "_" +:+ scenario.
Definition phase_key (api scenario : string) (phaseIndex : nat) : string :=
  api +:+ "_" +:+ scenario +:+ "_phase" +:+ pretty phaseIndex.
Definition count_name (key : string) : string := "count_" +:+ key.
Definition failed_name (key : string) : string := "failed_" +:+ key.
Definition duration_name (key : string) : string := "duration_" +:+ key.
Definition status_name (code : Z) (key : string) : string :=
  "status_" +:+ pretty code +:+ "_" +:+ key.

(** The object [{count, failed, duration, statusCodes}]; a [Counter] or
    [Trend] is known by the name it was created with. *)
Record MetricSet := mkMetricSet {
  count : string;
  failed : string;
  duration : string;
  statusCodes : gmap Z string
}.

(** What [initializeMetrics] stores for one key: the three metrics created
    by [new Counter]/[new Trend] and, from the loop over [statusCodes], one
    counter per tracked code. *)
Definition newMetricSet (key : string) : MetricSet :=
  mkMetricSet (count_name key) (failed_name key) (duration_name key)
    (foldl (λ codes code, <[code := status_name code key]> codes)
       ∅ statusCodes_tracked).

(** An object held in a property of [metrics[scenario]].  The property
    [phases] and the properties named after APIs live in the same object, so
    one shape covers both: [metric] is the metric fields of the object when
    it has them, [table] its numeric properties (the per-phase tables). *)
Record Slot := mkSlot {
  metric : option MetricSet;
  table : gmap nat (gmap string MetricSet)
}.

Abbreviation ScenarioObject := (gmap string Slot).
Abbreviation MetricsObject := (gmap string (gmap string Slot)).

(** [for (const api of apis) metrics[scenario][api] = {...}] *)
Definition init_apis (apis : list string) (scenario : string)
    (obj : ScenarioObject) : ScenarioObject :=
  foldl (λ o api,
           <[api := mkSlot (Some (newMetricSet (scenario_key api scenario))) ∅]> o)
    obj apis.

(** The body of [config.phases.forEach] for one [phaseIndex]: the table
    [metrics[scenario].phases[phaseIndex]] with one entry per API. *)
Definition init_phase_table (apis : list string) (scenario : string)
    (phaseIndex : nat) : gmap string MetricSet :=
  foldl (λ t api, <[api := newMetricSet (phase_key api scenario phaseIndex)]> t)
    ∅ apis.

(** [metrics[scenario].phases[phaseIndex] = t]: a property write on
    whatever object the property [phases] holds. *)
Definition set_phase_table (phaseIndex : nat) (t : gmap string MetricSet)
    (obj : ScenarioObject) : ScenarioObject :=
  alter (λ slot, mkSlot (metric slot) (<[phaseIndex := t]> (table slot)))
    "phases" obj.

Definition init_phases (apis : list string) (scenario : string)
    (nphases : nat) (obj : ScenarioObject) : ScenarioObject :=
  foldl (λ o phaseIndex,
           set_phase_table phaseIndex
             (init_phase_table apis scenario phaseIndex) o)
    obj (seq 0 nphases).

(** What the body of [for (const scenario of scenarios)] leaves in
    [metrics[scenario]]: the object [{phases: {}}], then the API
    properties, then the phase tables when the scenario declares phases. *)
Definition scenario_object (apis : list string)
    (scenarioConfig : gmap string ScenarioConfig) (scenario : string)
    : ScenarioObject :=
  let o0 : ScenarioObject := {[ "phases" := mkSlot None ∅ ]} in
  let o1 := init_apis apis scenario o0 in
  match scenarioConfig !! scenario ≫= phases with
  | Some ps => init_phases apis scenario (length ps) o1
  | None => o1
  end.

(** [initializeMetrics(apis, scenarios, scenarioConfig)] *)
Definition initializeMetrics (apis scenarios : list string)
    (scenarioConfig : gmap string ScenarioConfig) : MetricsObject :=
  foldl (λ metrics scenario,
           <[scenario := scenario_object apis scenarioConfig scenario]> metrics)
    ∅ scenarios.

(** The engine's sample store: every [add(v)] on a metric appends [v] to
    the samples kept under the metric's name. *)
Abbreviation Store := (gmap string (list Q)).

Definition samples (st : Store) (name : string) : list Q :=
  default [] (st !! name).

Definition add (name : string) (v : Q) (st : Store) : Store :=
  <[name := samples st name ++ [v]]> st.

(** The value of a counter: the sum of what was added to it. *)
Definition counter_value (st : Store) (name : string) : Q :=
  foldr Qplus 0%Q (samples st name).

(** The part of the k6 response the recorder reads. *)
Record Response := mkResponse { status : Z; timings_duration : Q }.

(** How a call ends: it returns, or a [TypeError] propagates to the caller
    (member access on [undefined]). *)
Inductive Completion (A : Type) : Type :=
| Returns (a : A)
| Throws_TypeError.
Arguments Returns {A} a.
Arguments Throws_TypeError {A}.

Definition bind {A B} (c : Completion A) (k : A → Completion B) : Completion B :=
  match c with
  | Returns a => k a
  | Throws_TypeError => Throws_TypeError
  end.

(** The body of either [if] block of [recordMetrics] once the object is
    known to carry metrics: count, duration, and for [status >= 400] the
    failure counter and the counter of the status code, if it has one. *)
Definition record_on (m : MetricSet) (res : Response) (st : Store) : Store :=
  let st := add (count m) 1 st in
  let st := add (duration m) (timings_duration res) st in
  if decide (400 ≤ status res) then
    let st := add (failed m) 1 st in
    match statusCodes m !! status res with
    | Some statusMetric => add statusMetric 1 st
    | None => st
    end
  else st.

(** [metrics[scenario]?.[api]] *)
Definition scenario_slot (metrics : MetricsObject) (scenario api : string)
    : option Slot :=
  obj ← metrics !! scenario;
  obj !! api.

(** [metrics[scenario]?.phases?.[phaseIndex]?.[api]] *)
Definition phase_metric (metrics : MetricsObject) (scenario api : string)
    (phaseIndex : nat) : option MetricSet :=
  obj ← metrics !! scenario;
  slot ← obj !! "phases";
  t ← table slot !! phaseIndex;
  t !! api.

(** [recordMetrics(metrics, api, scenario, phaseIndex, res)] as a function
    of the store.  In the first block the guard only tests that
    [metrics[scenario][api]] is truthy; the block then reads [.count] of it,
    and calling [.add] on a missing [.count] throws before anything is
    recorded. *)
Definition recordMetrics (metrics : MetricsObject) (api scenario : string)
    (phaseIndex : option nat) (res : Response) (st : Store)
    : Completion Store :=
  bind
    (match scenario_slot metrics scenario api with
     | Some slot =>
         match metric slot with
         | Some m => Returns (record_on m res st)
         | None => Throws_TypeError
         end
     | None => Returns st
     end)
    (λ st,
       match phaseIndex with
       | Some i =>
           match phase_metric metrics scenario api i with
           | Some m => Returns (record_on m res st)
           | None => Returns st
           end
       | None => Returns st
       end).

(** A sequence of calls for the same key, one per response. *)
Fixpoint recordAll (metrics : MetricsObject) (api scenario : string)
    (phaseIndex : option nat) (rs : list Response) (st : Store)
    : Completion Store :=
  match rs with
  | [] => Returns st
  | res :: rs' =>
      bind (recordMetrics metrics api scenario phaseIndex res st)
        (recordAll metrics api scenario phaseIndex rs')
  end.

(** *** What one recorded request is said to change

    [contribution key res name] is what a request with outcome [res] adds
    to the metric called [name] when it is recorded under [key]. *)
Definition contribution (key : string) (res : Response) (name : string)
    : list Q :=
  (if decide (name = count_name key) then [1%Q] else [])
  ++ (if decide (name = duration_name key) then [timings_duration res] else [])
  ++ (if decide (400 ≤ status res) then
        (if decide (name = failed_name key) then [1%Q] else [])
        ++ (if decide (status res ∈ statusCodes_tracked
                       ∧ name = status_name (status res) key)
            then [1%Q] else [])
      else []).

(** The update of one granularity, as the spec words it: one more request,
    one more duration sample, one more failure when the status is 400 or
    above, one more on the counter of that status code, and nothing on the
    counters of the other codes. *)
Definition level_updated (st st' : Store) (key : string) (res : Response)
    : Prop :=
  (counter_value st' (count_name key)
   == counter_value st (count_name key) + 1)%Q
  ∧ samples st' (duration_name key)
    = samples st (duration_name key) ++ [timings_duration res]
  ∧ (400 ≤ status res →
     (counter_value st' (failed_name key)
      == counter_value st (failed_name key) + 1)%Q)
  ∧ (status res < 400 →
     samples st' (failed_name key) = samples st (failed_name key))
  ∧ ∀ code, code ∈ statusCodes_tracked →
      (400 ≤ status res → code = status res →
       (counter_value st' (status_name code key)
        == counter_value st (status_name code key) + 1)%Q)
      ∧ (status res < 400 ∨ code ≠ status res →
         samples st' (status_name code key)
         = samples st (status_name code key)).

(** The names of the metrics created for one key. *)
Definition metric_names (key : string) : list string :=
  [count_name key; duration_name key; failed_name key]
  ++ ((λ code, status_name code key) <$> statusCodes_tracked).

(** Nothing recorded under [key] has changed. *)
Definition level_unchanged (st st' : Store) (key : string) : Prop :=
  samples st' (count_name key) = samples st (count_name key)
  ∧ samples st' (duration_name key) = samples st (duration_name key)
  ∧ samples st' (failed_name key) = samples st (failed_name key)
  ∧ ∀ code, code ∈ statusCodes_tracked →
      samples st' (status_name code key) = samples st (status_name code key).

End Metrics.

Import Metrics.

(** ** Aggregator (lines 219-400, 441-471) *)

(** [x.toFixed(2)] on an exact number below 10^21 in magnitude: the sign,
    then the integer nearest to [100 * |x|] (the larger one on a tie)
    written with two decimals. *)
Definition two_digits (n : Z) : string :=
  if decide (n < 10) then "0" +:+ pretty n else pretty n.

Definition toFixed2 (x : Q) : string :=
  let n := Qfloor (Qabs x * 100 + (1 # 2)) in
  (if Qlt_le_dec x 0 then "-" else "")
  +:+ pretty (n / 100) +:+ "." +:+ two_digits (n mod 100).

(** Truthiness of a number, and [x || 0] on a possibly missing one. *)
Definition truthy (x : Q) : bool := negb (Qeq_bool x 0).

Definition or_zero (x : option Q) : Q :=
  match x with
  | Some v => if truthy v then v else 0%Q
  | None => 0%Q
  end.

(** The SLA file: per API, optional percentile thresholds. *)
Module SLA.
Record Entry := mkEntry { p90 : option Q; p95 : option Q; p99 : option Q }.
End SLA.

Module Report.

(** One entry of [data.metrics]; [values] maps a statistic's name
    (["count"], ["min"], ["p(90)"], ...) to its number. *)
Record Metric := mkMetric { values : option (gmap string Q) }.

Abbreviation Data := (gmap string Metric).
Abbreviation Sla := (option (gmap string SLA.Entry)).

(** [data.metrics[name]?.values] and [data.metrics[name]?.values?.count] *)
Definition metric_values (data : Data) (name : string)
    : option (gmap string Q) :=
  m ← data !! name; values m.

Definition metric_count (data : Data) (name : string) : option Q :=
  v ← metric_values data name; v !! "count".

Inductive Status := PASS | FAIL | NA.

(** A row of a summary table; [sla = None] is the cell ['N/A']. *)
Record SummaryRow := mkSummaryRow {
  api : string;
  sla : option Q;
  min : string;
  max : string;
  avg : string;
  p90 : string;
  p95 : string;
  p99 : string;
  total : Q;
  passed : Q;
  failed : Q;
  errorPct : string;
  status : Status
}.

(** The end of each builder's loop body (lines 258-284, 314-340 and
    370-396 are the same text): pass count, error percentage, SLA cell and
    status, then the row. *)
Definition summaryRow (SLA : Sla) (api : string)
    (min max avg p90 p95 p99 total failed : Q) : SummaryRow :=
  let passed := (total - failed)%Q in
  let errorPct :=
    if truthy total then toFixed2 (failed / total * 100) else "0.00" in
  let hasSLA := SLA ≫= (.!! api) in
  let slaP90 := hasSLA ≫= SLA.p90 in
  let status :=
    match hasSLA with
    | Some _ =>
        if Qlt_le_dec 0 total then
          let p90Fail :=
            match slaP90 with
            | Some threshold => if Qlt_le_dec threshold p90 then true else false
            | None => false
            end in
          if p90Fail then FAIL else PASS
        else NA
    | None => NA
    end in
  mkSummaryRow api slaP90 (toFixed2 min) (toFixed2 max) (toFixed2 avg)
    (toFixed2 p90) (toFixed2 p95) (toFixed2 p99)
    total passed failed errorPct status.

(** The loop body of [buildPhaseTable] and [buildScenarioTable] (lines
    295-340 and 351-396), which differ only in the metric names; [key] is
    the part of the names after the prefix. *)
Definition direct_row (data : Data) (SLA : Sla) (api key : string)
    : SummaryRow :=
  let total := or_zero (metric_count data (count_name key)) in
  let failed := or_zero (metric_count data (failed_name key)) in
  match metric_values data (duration_name key) with
  | Some dv =>
      summaryRow SLA api
        (or_zero (dv !! "min")) (or_zero (dv !! "max")) (or_zero (dv !! "avg"))
        (or_zero (dv !! "p(90)")) (or_zero (dv !! "p(95)"))
        (or_zero (dv !! "p(99)")) total failed
  | None => summaryRow SLA api 0 0 0 0 0 0 total failed
  end.

Definition buildPhaseTable (data : Data) (scenario : string)
    (phaseIndex : nat) (SLA : Sla) (apis : list string) : list SummaryRow :=
  foldl (λ rows api,
           rows ++ [direct_row data SLA api (phase_key api scenario phaseIndex)])
    [] apis.

Definition buildScenarioTable (data : Data) (scenario : string)
    (SLA : Sla) (apis : list string) : list SummaryRow :=
  foldl (λ rows api,
           rows ++ [direct_row data SLA api (scenario_key api scenario)])
    [] apis.

(** The state of the inner loop of [buildOverallAggregateTable]. *)
Record Accumulator := mkAcc {
  acc_total : Q;
  acc_failed : Q;
  allDurations : list (gmap string Q)
}.

(** One turn of [for (const scenario of scenarios)] (lines 228-242). *)
Definition aggregate_step (data : Data) (api : string) (a : Accumulator)
    (scenario : string) : Accumulator :=
  let key := scenario_key api scenario in
  let total :=
    match metric_count data (count_name key) with
    | Some c => if truthy c then (acc_total a + c)%Q else acc_total a
    | None => acc_total a
    end in
  let failed :=
    match metric_count data (failed_name key) with
    | Some c => if truthy c then (acc_failed a + c)%Q else acc_failed a
    | None => acc_failed a
    end in
  let durations :=
    match metric_values data (duration_name key) with
    | Some dv => allDurations a ++ [dv]
    | None => allDurations a
    end in
  mkAcc total failed durations.

(** [Math.min(...l)] and [Math.max(...l)] behind the guard
    [l.length > 0 ? ... : 0]. *)
Definition min_or_zero (l : list Q) : Q :=
  match l with
  | [] => 0%Q
  | v :: vs => foldl Qmin v vs
  end.

Definition max_or_zero (l : list Q) : Q :=
  match l with
  | [] => 0%Q
  | v :: vs => foldl Qmax v vs
  end.

(** [allDurations.reduce((sum, d) => sum + (d[field] || 0), 0)
     / allDurations.length] *)
Definition mean_of (field : string) (durations : list (gmap string Q)) : Q :=
  (foldl (λ sum d, sum + or_zero (d !! field)) 0 durations
   / inject_Z (Z.of_nat (length durations)))%Q.

(** The loop body of [buildOverallAggregateTable] for one API.  The
    [filter] after [map] keeps the defined numbers. *)
Definition overall_row (data : Data) (SLA : Sla) (scenarios : list string)
    (api : string) : SummaryRow :=
  let a := foldl (aggregate_step data api) (mkAcc 0 0 []) scenarios in
  match allDurations a with
  | [] => summaryRow SLA api 0 0 0 0 0 0 (acc_total a) (acc_failed a)
  | _ :: _ =>
      let validMins := omap (λ d : gmap string Q, d !! "min") (allDurations a) in
      let validMaxs := omap (λ d : gmap string Q, d !! "max") (allDurations a) in
      summaryRow SLA api
        (min_or_zero validMins) (max_or_zero validMaxs)
        (mean_of "avg" (allDurations a)) (mean_of "p(90)" (allDurations a))
        (mean_of "p(95)" (allDurations a)) (mean_of "p(99)" (allDurations a))
        (acc_total a) (acc_failed a)
  end.

Definition buildOverallAggregateTable (data : Data) (SLA : Sla)
    (apis scenarios : list string) : list SummaryRow :=
  foldl (λ rows api, rows ++ [overall_row data SLA scenarios api]) [] apis.

(** A row of the error distribution. *)
Module ErrorRow.
Record t := mk {
  api : string;
  status : Z;
  count : Q;
  pct : string
}.
End ErrorRow.

(** The innermost loop of [buildApiErrorCorrelation] (lines 449-452). *)
Definition error_count (data : Data) (api : string) (code : Z)
    (scenarios : list string) : Q :=
  foldl (λ totalCount scenario,
           (totalCount
            + or_zero (metric_count data
                         (status_name code (scenario_key api scenario))))%Q)
    0%Q scenarios.

(** The two outer loops: the rows before [pct] is filled in. *)
Definition error_rows (data : Data) (apis scenarios : list string)
    : list (string * Z * Q) :=
  foldl (λ rows api,
           foldl (λ rows code,
                    let totalCount := error_count data api code scenarios in
                    if Qlt_le_dec 0 totalCount
                    then rows ++ [(api, code, totalCount)]
                    else rows)
             rows statusCodes_tracked)
    [] apis.

Definition buildApiErrorCorrelation (data : Data) (apis scenarios : list string)
    : list ErrorRow.t :=
  let finalRows := error_rows data apis scenarios in
  let totalErrors := foldl (λ sum r, (sum + r.2)%Q) 0%Q finalRows in
  (λ r, ErrorRow.mk r.1.1 r.1.2 r.2
          (if truthy totalErrors
           then toFixed2 (r.2 / totalErrors * 100) else "0.00"))
  <$> finalRows.

(** *** What the aggregator is said to compute *)

Definition Qsum (l : list Q) : Q := foldr Qplus 0%Q l.












(** The 90th percentile a direct table compares with the threshold. *)
Definition observed_p90 (data : Data) (key : string) : Q :=
  or_zero (metric_values data (duration_name key) ≫= (.!! "p(90)")).


(** The tracked errors of one API and status code in one scenario, and
    their sum over the scenarios. *)
Definition scenario_status_count (data : Data) (api : string) (code : Z)
    (scenario : string) : Q :=
  or_zero (metric_count data (status_name code (scenario_key api scenario))).

Definition status_total (data : Data) (api : string) (code : Z)
    (scenarios : list string) : Q :=
  Qsum (scenario_status_count data api code <$> scenarios).



(** The row of one API and one status code, if it has errors. *)
Definition error_cell (data : Data) (scenarios : list string)
    (api : string) (code : Z) : list (string * Z * Q) :=
  let totalCount := error_count data api code scenarios in
  if Qlt_le_dec 0 totalCount then [(api, code, totalCount)] else [].


End Report.

(** ** Sample inputs *)

Module Examples.

Import Report.

(** A summary with two scenarios of one API: "load" with 10 requests, 2 of
    them answered 500, and "soak" with 100 requests. *)
Definition data : Data :=
  {[ "count_home_load" := mkMetric (Some {[ "count" := 10%Q ]});
     "failed_home_load" := mkMetric (Some {[ "count" := 2%Q ]});
     "status_500_home_load" := mkMetric (Some {[ "count" := 2%Q ]});
     "duration_home_load" :=
       mkMetric (Some {[ "min" := 5%Q; "max" := 400%Q; "avg" := 80%Q;
                         "p(90)" := 100%Q; "p(95)" := 150%Q ]});
     "count_home_soak" := mkMetric (Some {[ "count" := 100%Q ]});
     "duration_home_soak" :=
       mkMetric (Some {[ "min" := 3%Q; "max" := 900%Q; "avg" := 120%Q;
                         "p(90)" := 300%Q; "p(95)" := 350%Q ]}) ]}.


(** An SLA with a p90 threshold, and one whose entry only has a p95. *)
Definition sla : Sla :=
  Some {[ "home" := SLA.mkEntry (Some 250%Q) (Some 500%Q) None ]}.


End Examples.

(** ** Request helper (lines 689-720) *)

Module Request.

(** The part of the k6 response that [makeRequest] reads. *)
Record HttpResponse := mkHttpResponse {
  res_status : Z;
  res_status_text : string;
  res_body : string;
  res_timings_duration : Q
}.

(** The same response as [recordMetrics] sees it. *)
Definition recorded (res : HttpResponse) : Response :=
  mkResponse (res_status res) (res_timings_duration res).

(** [s.includes(searchString)] *)
Fixpoint includes (s searchString : string) : bool :=
  String.prefix searchString s
  || match s with
     | EmptyString => false
     | String _ s' => includes s' searchString
     end.

(** The class [\s], which is also what [trim] strips, among the code units
    below 256: tab, line feed, vertical tab, form feed, carriage return,
    space and no-break space. *)
Definition is_space (c : ascii) : bool :=
  match c with
  | "009"%char | "010"%char | "011"%char | "012"%char | "013"%char
  | " "%char | "160"%char => true
  | _ => false
  end.

(** [s.replace(/\s+/g, ' ')]: every maximal run of white space becomes one
    space.  [in_run] tells that the character before [s] was white space,
    so that the run it belongs to has been replaced already. *)
Fixpoint collapse (in_run : bool) (s : string) : string :=
  match s with
  | EmptyString => EmptyString
  | String c s' =>
      if is_space c then
        if in_run then collapse true s' else String " " (collapse true s')
      else String c (collapse false s')
  end.

Fixpoint trimStart (s : string) : string :=
  match s with
  | EmptyString => EmptyString
  | String c s' => if is_space c then trimStart s' else s
  end.

Fixpoint trimEnd (s : string) : string :=
  match s with
  | EmptyString => EmptyString
  | String c s' =>
      match trimEnd s' with
      | EmptyString => if is_space c then EmptyString else String c EmptyString
      | t => String c t
      end
  end.

Definition trim (s : string) : string := trimEnd (trimStart s).

(** [res.body.replace(/\s+/g, ' ').trim()] *)
Definition bodySingleLine (body : string) : string :=
  trim (collapse false body).

(** *** What the single-line body is said to be

    [single_spaced s]: the only white space in [s] is the plain space, and
    every space is followed by a character that is not white space, so
    that no two spaces are adjacent and none is at the end. *)
Fixpoint single_spaced (s : string) : bool :=
  match s with
  | EmptyString => true
  | String c s' =>
      (if is_space c then
         Ascii.eqb c " "
         && match s' with
            | String d _ => negb (is_space d)
            | EmptyString => false
            end
       else true)
      && single_spaced s'
  end.

Definition starts_with_space (s : string) : bool :=
  match s with
  | String c _ => is_space c
  | EmptyString => false
  end.

(** The characters of [s] that are not white space, in order. *)
Fixpoint visible (s : string) : string :=
  match s with
  | EmptyString => EmptyString
  | String c s' => if is_space c then visible s' else String c (visible s')
  end.

(** The result of [check(res, {...})]: the status is 2xx and, when an
    expected text is given (neither [null] nor empty), the body contains
    it. *)
Definition passed (res : HttpResponse) (expectedText : option string) : bool :=
  (bool_decide (200 ≤ res_status res) && bool_decide (res_status res < 300))
  && match expectedText with
     | Some t => if decide (t = "") then true else includes (res_body res) t
     | None => true
     end.

(** The line written by [console.error]; [inputParam] is the text the
    template literal prints for the argument. *)
Definition error_line (apiName : string) (res : HttpResponse)
    (inputParam : string) : string :=
  "API: " +:+ apiName +:+ " Status: " +:+ pretty (res_status res) +:+ " "
  +:+ res_status_text res +:+ " Input: " +:+ inputParam +:+ " Body: "
  +:+ bodySingleLine (res_body res).

(** [makeRequest(apiName, url, inputParam, scenarioConfig, metrics,
    testStartTime, expectedText, printErrors)].  [res] is the response of
    [http.get(url)], [scenarioName] the value of [exec.scenario.name] and
    [now] that of [Date.now()].  The result is the store of the custom
    metrics and the lines written to the error console. *)
Definition makeRequest (apiName : string) (res : HttpResponse)
    (inputParam scenarioName : string)
    (scenarioConfig : gmap string ScenarioConfig) (metrics : MetricsObject)
    (testStartTime now : Z) (expectedText : option string)
    (printErrors : bool) (st : Store) : Completion (Store * list string) :=
  let currentPhase :=
    getCurrentPhase scenarioName scenarioConfig testStartTime now in
  bind (recordMetrics metrics apiName scenarioName currentPhase
          (recorded res) st)
    (λ st',
       Returns (st',
                if negb (passed res expectedText) && printErrors
                then [error_line apiName res inputParam] else [])).

(** A virtual user's calls for one API, in order: the time and the response
    of each. *)
Fixpoint requests (apiName scenarioName : string)
    (scenarioConfig : gmap string ScenarioConfig) (metrics : MetricsObject)
    (testStartTime : Z) (calls : list (Z * HttpResponse)) (st : Store)
    : Completion Store :=
  match calls with
  | [] => Returns st
  | (now, res) :: calls' =>
      bind (makeRequest apiName res "" scenarioName scenarioConfig metrics
              testStartTime now None false st)
        (λ r, requests apiName scenarioName scenarioConfig metrics
                testStartTime calls' r.1)
  end.

End Request.

(** ** Report assembly (lines 64-216, 403-425) *)

Module Executive.
(** The object returned by [buildExecutiveSummary]; [startTime] is the time
    value of the [Date], in milliseconds. *)
Record t := mk {
  start : string;
  end_ : string;
  duration : string;
  total : Q;
  passed : Q;
  failed : Q;
  passPct : string;
  startTime : Z
}.
End Executive.

Module Assembly.

Import Report.

(** The argument of [handleSummary] as far as the report reads it. *)
Record RunData := mkRunData {
  testRunDurationMs : option Q;
  metrics : Data
}.

(** The time value of [new Date(x)]: the fraction of a millisecond is cut
    off. *)
Definition time_clip (x : Q) : Z :=
  if Qlt_le_dec x 0 then Qceiling x else Qfloor x.

(** [Math.round(x)]: the nearest integer, the larger one on a tie. *)
Definition Math_round (x : Q) : Z := Qfloor (x + (1 # 2)).

(** [buildExecutiveSummary(data)].  [now] is the time value of
    [new Date()], [toLocaleString] the locale's rendering of a time
    value. *)
Definition buildExecutiveSummary (toLocaleString : Z → string)
    (data : RunData) (now : Z) : Executive.t :=
  let durationMs := or_zero (testRunDurationMs data) in
  let end_ := toLocaleString now in
  let startTime := time_clip (inject_Z now - durationMs) in
  let start := toLocaleString startTime in
  let total := or_zero (metric_count (metrics data) "http_reqs") in
  let failRate :=
    or_zero (metric_values (metrics data) "http_req_failed" ≫= (.!! "rate")) in
  let failed := inject_Z (Math_round (total * failRate)) in
  let passed := (total - failed)%Q in
  Executive.mk start end_ (toFixed2 (durationMs / 1000)) total passed failed
    (if truthy total then toFixed2 (passed / total * 100) else "0.00")
    startTime.

(** What the report shows for one phase: the phase's name, the time values
    of [phaseStart] and [phaseEnd], and the phase table, or [None] where the
    report says "No data for this phase". *)
Record PhaseSection := mkPhaseSection {
  heading : option string;
  phaseStart : Z;
  phaseEnd : Z;
  phaseRows : option (list SummaryRow)
}.

(** What the report shows for one scenario: its title, its overall table
    and, when the scenario declares phases, the phase breakdown. *)
Record ScenarioSection := mkScenarioSection {
  scenarioName : string;
  overallRows : list SummaryRow;
  breakdown : option (list PhaseSection)
}.

(** [config.phases.forEach((phase, phaseIndex) => ...)] of
    [printConsoleReport] (lines 103-118) and [generateReport] (lines
    156-176), entered at [phaseIndex] with the running [currentOffset]. *)
Fixpoint phase_sections (data : Data) (scenario : string) (SLA : Sla)
    (apis : list string) (startTime : Z) (ps : list Phase) (phaseIndex : nat)
    (currentOffset : Z) : list PhaseSection :=
  match ps with
  | [] => []
  | phase :: ps' =>
      let phaseDuration := parseDuration (Phases.duration phase) in
      let phaseStart := startTime + currentOffset * 1000 in
      let phaseEnd := phaseStart + phaseDuration * 1000 in
      let phaseRows := buildPhaseTable data scenario phaseIndex SLA apis in
      mkPhaseSection (phase_name phase) phaseStart phaseEnd
        (if existsb (λ r, if Qlt_le_dec 0 (total r) then true else false)
              phaseRows
         then Some phaseRows else None)
      :: phase_sections data scenario SLA apis startTime ps' (S phaseIndex)
           (currentOffset + phaseDuration)
  end.

(** The body of [for (const scenario of scenarios)] (lines 85-119 and
    138-177).  [config.name] is read without a guard, so a scenario that
    has no entry in [scenarioConfig] ends the call with a [TypeError]. *)
Definition scenario_section (data : Data) (SLA : Sla) (apis : list string)
    (scenarioConfig : gmap string ScenarioConfig) (startTime : Z)
    (scenario : string) : Completion ScenarioSection :=
  match scenarioConfig !! scenario with
  | None => Throws_TypeError
  | Some config =>
      Returns
        (mkScenarioSection (or_string (name config) scenario)
           (buildScenarioTable data scenario SLA apis)
           ((λ ps, phase_sections data scenario SLA apis startTime ps 0
                     (parseDuration
                        (Some (or_string (Phases.startTime config) "0s"))))
            <$> phases config))
  end.

Fixpoint scenarioSections (data : Data) (SLA : Sla) (apis : list string)
    (scenarioConfig : gmap string ScenarioConfig) (startTime : Z)
    (scenarios : list string) : Completion (list ScenarioSection) :=
  match scenarios with
  | [] => Returns []
  | scenario :: scenarios' =>
      bind (scenario_section data SLA apis scenarioConfig startTime scenario)
        (λ s, bind (scenarioSections data SLA apis scenarioConfig startTime
                      scenarios')
                (λ ss, Returns (s :: ss)))
  end.

(** Everything [printConsoleReport] and [generateReport] compute before
    they lay it out as console tables or as a page: the execution summary,
    the overall table, the scenario sections and the error distribution. *)
Record ReportContent := mkReportContent {
  summary : Executive.t;
  overall : list SummaryRow;
  sections : list ScenarioSection;
  errorRows : list ErrorRow.t
}.

Definition reportContent (toLocaleString : Z → string) (data : RunData)
    (SLA : Sla) (apis scenarios : list string)
    (scenarioConfig : gmap string ScenarioConfig) (now : Z)
    : Completion ReportContent :=
  let summary := buildExecutiveSummary toLocaleString data now in
  let overallRows :=
    buildOverallAggregateTable (metrics data) SLA apis scenarios in
  bind (scenarioSections (metrics data) SLA apis scenarioConfig
          (Executive.startTime summary) scenarios)
    (λ sections,
       Returns (mkReportContent summary overallRows sections
                  (buildApiErrorCorrelation (metrics data) apis scenarios))).

(** Two rows that show the same: equal texts and status, equal numbers. *)
Definition same_row (r r' : SummaryRow) : Prop :=
  api r = api r' ∧ sla r = sla r'
  ∧ min r = min r' ∧ max r = max r' ∧ avg r = avg r'
  ∧ p90 r = p90 r' ∧ p95 r = p95 r' ∧ p99 r = p99 r'
  ∧ (total r == total r')%Q ∧ (passed r == passed r')%Q
  ∧ (failed r == failed r')%Q
  ∧ errorPct r = errorPct r' ∧ status r = status r'.

End Assembly.

(** ** Console tables (lines 498-529) *)

Module Console.

(** A row object after [String(...)] has been applied to its values: the
    properties in insertion order.  Property names are not array indices,
    so [Object.keys] lists them in this order. *)
Definition Row := list (string * string).

(** [String(row[key] ?? "")] *)
Fixpoint cell (row : Row) (key : string) : string :=
  match row with
  | [] => ""
  | (k, v) :: row' => if decide (k = key) then v else cell row' key
  end.

(** [s.repeat(n)] *)
Fixpoint repeat (s : string) (n : nat) : string :=
  match n with
  | O => ""
  | S n' => s +:+ repeat s n'
  end.

(** [s.padEnd(targetLength)] *)
Definition padEnd (s : string) (targetLength : nat) : string :=
  s +:+ repeat " " (targetLength - String.length s).

Definition colWidths (keys : list string) (data : list Row) : list nat :=
  (λ key, foldl Nat.max (String.length key)
            ((λ row, String.length (cell row key)) <$> data))
  <$> keys.

Definition separator (widths : list nat) : string :=
  "+" +:+ String.concat "+" ((λ w, repeat "-" (w + 2)) <$> widths) +:+ "+".

(** The header line and the line of a row have the same shape; [text]
    gives the content of the column of [key]. *)
Definition table_line (keys : list string) (widths : list nat)
    (text : string → string) : string :=
  "|" +:+ String.concat "|"
            (zip_with (λ key w, " " +:+ padEnd (text key) w +:+ " ")
               keys widths)
  +:+ "|".

(** [asciiTable(data)]: the lines written to the console. *)
Definition asciiTable (data : list Row) : list string :=
  match data with
  | [] => ["No data available"]
  | first :: _ =>
      let keys := fst <$> first in
      let widths := colWidths keys data in
      [separator widths; table_line keys widths id; separator widths]
      ++ ((λ row, table_line keys widths (cell row)) <$> data)
      ++ [separator widths]
  end.

End Console.

(** ** Thresholds of the test scripts
    ([generateThresholds] of src/unnamed/part_000, lines 69-93; the same
    text is in src/CRUD_k6.js and src/unnamed/part_001) *)

Module Thresholds.

(** [`p(90)<${SLA[api].p90}`]; [number_text] is the text a template
    literal prints for a number. *)
Definition p90_below (number_text : Q → string) (threshold : Q) : string :=
  "p(90)<" +:+ number_text threshold.

(** [if (SLA[api]?.p90 !== undefined) thresholds[name] = [...]] *)
Definition set_threshold (number_text : Q → string)
    (SLA : gmap string SLA.Entry) (api name : string)
    (thresholds : gmap string (list string)) : gmap string (list string) :=
  match SLA !! api ≫= SLA.p90 with
  | Some threshold => <[name := [p90_below number_text threshold]]> thresholds
  | None => thresholds
  end.

(** How k6 reads the expression [p(90)<N] at the end of the test: the
    threshold holds when the trend's 90th percentile is below [N]. *)
Definition p90_below_holds (observed threshold : Q) : bool :=
  if Qlt_le_dec observed threshold then true else false.

(** The body of the inner loop for one API and one scenario.  The property
    [phases] is read from [config] without a guard. *)
Definition threshold_step (number_text : Q → string)
    (SLA : gmap string SLA.Entry)
    (scenarioConfig : gmap string ScenarioConfig) (api : string)
    (thresholds : gmap string (list string)) (scenarioKey : string)
    : Completion (gmap string (list string)) :=
  let thresholds :=
    set_threshold number_text SLA api
      (duration_name (scenario_key api scenarioKey)) thresholds in
  match scenarioConfig !! scenarioKey with
  | None => Throws_TypeError
  | Some config =>
      match phases config with
      | Some ps =>
          Returns
            (foldl (λ th index,
                      set_threshold number_text SLA api
                        (duration_name (phase_key api scenarioKey index)) th)
               thresholds (seq 0 (length ps)))
      | None => Returns thresholds
      end
  end.

(** A loop whose body may throw. *)
Fixpoint for_each {A B} (body : A → B → Completion A) (a : A) (l : list B)
    : Completion A :=
  match l with
  | [] => Returns a
  | x :: l' => bind (body a x) (λ a', for_each body a' l')
  end.

(** [generateThresholds(SLA, apis, scenarios, scenarioConfig)] *)
Definition generateThresholds (number_text : Q → string)
    (SLA : gmap string SLA.Entry) (apis scenarios : list string)
    (scenarioConfig : gmap string ScenarioConfig)
    : Completion (gmap string (list string)) :=
  for_each (λ thresholds api,
              for_each (threshold_step number_text SLA scenarioConfig api)
                thresholds scenarios)
    ∅ apis.

End Thresholds.

(** * Properties *)

(** ** Facts about the duration parser *)

Section DurationFacts.

Lemma append_cons c a b : String c a +:+ b = String c (a +:+ b).
Proof. reflexivity. Qed.

Lemma is_unit_not_digit u : is_unit u = true → is_digit u = false.
Proof.
  destruct u as [[] [] [] [] [] [] [] []]; simpl; try discriminate; reflexivity.
Qed.

Lemma add_unit_seconds acc v u :
  add_unit acc v u = acc + v * unit_seconds u.
Proof.
  destruct u as [[] [] [] [] [] [] [] []]; simpl; lia.
Qed.

Lemma parseInt_go_nonneg acc s :
  0 ≤ acc →
  0 ≤ (fix go (acc : Z) (s : string) : Z :=
         match s with
         | EmptyString => acc
         | String c s' => go (acc * 10 + digit_val c) s'
         end) acc s.
Proof.
  revert acc. induction s as [|c s IH]; intros acc Hacc; [done|].
  apply IH. unfold digit_val. destruct (Ascii.is_nat c); lia.
Qed.

Lemma parseInt_nonneg ds : 0 ≤ parseInt ds.
Proof. unfold parseInt. by apply parseInt_go_nonneg. Qed.

Lemma unit_seconds_nonneg u : 0 ≤ unit_seconds u.
Proof. destruct u as [[] [] [] [] [] [] [] []]; simpl; lia. Qed.

(** A well-formed token is matched whole at its first digit. *)
Lemma match_here_token ds u r :
  all_digits ds = true → ds ≠ "" → is_unit u = true →
  match_here (ds +:+ String u r) = Some (mkMatch ds u r).
Proof.
  intros Hds Hne Hu. induction ds as [|c ds IH]; [done|].
  simpl in Hds. apply andb_prop in Hds as [Hc Hds].
  simpl. rewrite Hc. destruct ds as [|c' ds'].
  - simpl. rewrite (is_unit_not_digit _ Hu), Hu. done.
  - rewrite IH by done. done.
Qed.

(** No match starts inside text that holds no token. *)
Lemma match_here_no_token j : no_token j = true → match_here j = None.
Proof.
  induction j as [|c j IH]; [done|].
  simpl. intros [Hc Hj]%andb_prop. rewrite (IH Hj).
  destruct (is_digit c); [|done].
  destruct j as [|d j']; [done|].
  apply negb_true_iff in Hc. by rewrite Hc.
Qed.

Lemma match_here_ignored j x :
  ignored j = true → j ≠ "" → match_here (j +:+ x) = None.
Proof.
  induction j as [|c j IH]; [done|].
  simpl. intros [Hc Hj]%andb_prop _.
  destruct (is_digit c); [|done].
  destruct j as [|d j']; [done|].
  rewrite IH by done. simpl.
  apply negb_true_iff in Hc. by rewrite Hc.
Qed.

Lemma exec_no_token j : no_token j = true → exec j = None.
Proof.
  induction j as [|c j IH]; [done|].
  intros Hj. cbn [exec]. rewrite (match_here_no_token _ Hj).
  simpl in Hj. apply andb_prop in Hj as [_ Hj]. by apply IH.
Qed.

Lemma exec_ignored j x : ignored j = true → exec (j +:+ x) = exec x.
Proof.
  induction j as [|c j IH]; [done|].
  intros Hj. change (String c j +:+ x) with (String c (j +:+ x)).
  cbn [exec].
  change (String c (j +:+ x)) with (String c j +:+ x).
  rewrite match_here_ignored by done.
  simpl in Hj. apply andb_prop in Hj as [_ Hj]. by apply IH.
Qed.

Lemma exec_token ds u r :
  all_digits ds = true → ds ≠ "" → is_unit u = true →
  exec (ds +:+ String u r) = Some (mkMatch ds u r).
Proof.
  intros Hds Hne Hu. destruct ds as [|c ds]; [done|].
  change (String c ds +:+ String u r) with (String c (ds +:+ String u r)).
  cbn [exec].
  change (String c (ds +:+ String u r)) with (String c ds +:+ String u r).
  by rewrite match_here_token.
Qed.

Lemma parse_loop_None s acc : exec s = None → parse_loop s acc = acc.
Proof.
  intros H. rewrite parse_loop_equation_1.
  destruct (inspect (exec s)) as [[m|] Hm]; simpl; [congruence|done].
Qed.

Lemma parse_loop_Some s m acc :
  exec s = Some m →
  parse_loop s acc
  = parse_loop (rest m) (acc + parseInt (digits m) * unit_seconds (unit m)).
Proof.
  intros H. rewrite parse_loop_equation_1.
  destruct (inspect (exec s)) as [[m'|] Hm]; simpl; [|congruence].
  rewrite add_unit_seconds. congruence.
Qed.

(** Every valid reading of the input gives the parser's sum. *)
Lemma parse_loop_render ts trailing acc :
  forallb token_ok ts = true → no_token trailing = true →
  parse_loop (render ts trailing) acc = acc + tokens_seconds ts.
Proof.
  revert acc. induction ts as [|t ts IH]; intros acc Hts Htr; simpl.
  - rewrite parse_loop_None by (by apply exec_no_token). lia.
  - simpl in Hts. apply andb_prop in Hts as [Ht Hts].
    unfold token_ok in Ht.
    apply andb_prop in Ht as [[[Hj Hds]%andb_prop Hne]%andb_prop Hu].
    apply negb_true_iff, String.eqb_neq in Hne.
    erewrite parse_loop_Some; last first.
    { rewrite exec_ignored by done. by apply exec_token. }
    simpl. rewrite IH by done. unfold token_seconds. lia.
Qed.

Lemma match_here_Some_inv s m :
  match_here s = Some m →
  s = digits m +:+ String (unit m) (rest m)
  ∧ all_digits (digits m) = true ∧ digits m ≠ "" ∧ is_unit (unit m) = true.
Proof.
  revert m. induction s as [|c s IH]; intros m; simpl; [done|].
  destruct (is_digit c) eqn:Hc; [|done].
  destruct (match_here s) as [m'|] eqn:E.
  - intros [= <-]. simpl. destruct (IH _ eq_refl) as (-> & ? & ? & ?).
    rewrite Hc. done.
  - destruct s as [|u r]; [done|].
    destruct (is_unit u) eqn:Hu; [|done].
    intros [= <-]. simpl. by rewrite Hc.
Qed.

Lemma match_here_None_digit c s :
  is_digit c = true → match_here (String c s) = None →
  match_here s = None
  ∧ match s with String d _ => is_unit d = false | EmptyString => True end.
Proof.
  simpl. intros ->. destruct (match_here s); [done|].
  destruct s as [|d r]; [done|]. destruct (is_unit d); done.
Qed.

Lemma exec_None_inv s : exec s = None → no_token s = true.
Proof.
  induction s as [|c s IH]; [done|].
  cbn [exec]. destruct (match_here (String c s)) eqn:E; [done|].
  intros H. cbn [no_token]. rewrite (IH H), andb_true_r.
  destruct (is_digit c) eqn:Hc; [|done].
  destruct (match_here_None_digit _ _ Hc E) as [_ Hd].
  destruct s as [|d r]; [done|]. by rewrite Hd.
Qed.

Lemma exec_Some_inv s m :
  exec s = Some m →
  ∃ j, s = j +:+ digits m +:+ String (unit m) (rest m)
       ∧ ignored j = true
       ∧ all_digits (digits m) = true ∧ digits m ≠ ""
       ∧ is_unit (unit m) = true.
Proof.
  induction s as [|c s IH]; [done|].
  cbn [exec]. destruct (match_here (String c s)) as [m'|] eqn:E.
  - intros [= ->]. exists "".
    apply match_here_Some_inv in E as (Hs & ? & ? & ?). by rewrite Hs at 1.
  - intros H. destruct (IH H) as (j & Hs & Hj & Hds & Hne & Hu).
    exists (String c j). split; [rewrite append_cons; by f_equal|].
    split; [|done]. cbn [ignored]. rewrite Hj, andb_true_r.
    destruct (is_digit c) eqn:Hc; [|done].
    destruct (match_here_None_digit _ _ Hc E) as [Hn Hd].
    destruct j as [|d j'].
    + change (s = digits m +:+ String (unit m) (rest m)) in Hs.
      rewrite Hs, match_here_token in Hn; done.
    + rewrite Hs, append_cons in Hd. by rewrite Hd.
Qed.

(** Every input has a valid reading. *)
Lemma render_complete s :
  ∃ ts trailing,
    s = render ts trailing
    ∧ forallb token_ok ts = true ∧ no_token trailing = true.
Proof.
  remember (String.length s) as n eqn:Hn.
  revert s Hn. induction n as [n IH] using lt_wf_ind. intros s ->.
  destruct (exec s) as [m|] eqn:E.
  - destruct (exec_Some_inv _ _ E) as (j & Hs & Hj & Hds & Hne & Hu).
    destruct (IH _ (exec_shorter _ _ E) (rest m) eq_refl)
      as (ts & tr & Hr & Hts & Htr).
    exists (mkToken j (digits m) (unit m) :: ts), tr.
    split; [cbn [render before number letter]; by rewrite <- Hr|].
    split; [|done].
    simpl. rewrite Hts, andb_true_r. unfold token_ok. simpl.
    rewrite Hj, Hds, Hu. simpl. rewrite andb_true_r.
    by apply negb_true_iff, String.eqb_neq.
  - exists [], s. split; [done|]. split; [done|]. by apply exec_None_inv.
Qed.

Lemma tokens_seconds_nonneg ts : 0 ≤ tokens_seconds ts.
Proof.
  induction ts as [|t ts IH]; simpl; [lia|].
  unfold token_seconds.
  pose proof (parseInt_nonneg (number t)).
  pose proof (unit_seconds_nonneg (letter t)). nia.
Qed.

Lemma parse_loop_nonneg s : 0 ≤ parse_loop s 0.
Proof.
  destruct (render_complete s) as (ts & tr & -> & Hts & Htr).
  rewrite parse_loop_render by done.
  pose proof (tokens_seconds_nonneg ts). lia.
Qed.

Lemma parseDuration_nonneg d : 0 ≤ parseDuration d.
Proof.
  destruct d as [d|]; simpl; [|lia].
  repeat case_decide; try lia. apply parse_loop_nonneg.
Qed.


End DurationFacts.

(** ** Facts about the phase resolver *)

Section PhaseFacts.

Local Open Scope Q_scope.

Lemma cumulative_through_step p ps i :
  cumulative_through (p :: ps) (S i)
  = (parseDuration (Phases.duration p) + cumulative_through ps i)%Z.
Proof. reflexivity. Qed.

Lemma cumulative_through_last ps :
  ps ≠ [] →
  cumulative_through ps (length ps - 1) = total_duration ps.
Proof.
  induction ps as [|p ps IH]; [done|]. intros _.
  destruct ps as [|q ps]; [reflexivity|].
  replace (length (p :: q :: ps) - 1)%nat with (S (length (q :: ps) - 1))
    by (simpl; lia).
  rewrite cumulative_through_step, IH by done. reflexivity.
Qed.


Lemma phase_loop_Some elapsed ps i0 c0 i :
  phase_loop elapsed ps i0 c0 = Some i →
  ∃ k, i = (i0 + k)%nat ∧ (k < length ps)%nat
       ∧ elapsed < inject_Z (c0 + cumulative_through ps k)
       ∧ ∀ j, (j < k)%nat →
              inject_Z (c0 + cumulative_through ps j) <= elapsed.
Proof.
  revert i0 c0. induction ps as [|p ps IH]; intros i0 c0; cbn [phase_loop];
    [done|].
  destruct (Qlt_le_dec _ _) as [Hlt|Hge].
  - intros [= <-]. exists 0%nat. repeat split; [lia|simpl; lia| |intros; lia].
    cbn [cumulative_through]. by rewrite Z.add_0_r.
  - intros (k & -> & Hk & Hlt & Hfirst)%IH.
    exists (S k). repeat split; [lia|simpl; lia| |].
    + by rewrite cumulative_through_step, Z.add_assoc.
    + intros [|j] Hj.
      * cbn [cumulative_through]. by rewrite Z.add_0_r.
      * rewrite cumulative_through_step, Z.add_assoc. apply Hfirst. lia.
Qed.

Lemma phase_loop_None elapsed ps i0 c0 :
  phase_loop elapsed ps i0 c0 = None →
  ∀ k, (k < length ps)%nat →
       inject_Z (c0 + cumulative_through ps k) <= elapsed.
Proof.
  revert i0 c0. induction ps as [|p ps IH]; intros i0 c0; cbn [phase_loop].
  - intros _ k Hk. simpl in Hk. lia.
  - destruct (Qlt_le_dec _ _) as [Hlt|Hge]; [done|].
    intros H [|k] Hk.
    + cbn [cumulative_through]. by rewrite Z.add_0_r.
    + rewrite cumulative_through_step, Z.add_assoc.
      eapply IH; [done|]. simpl in Hk. lia.
Qed.

(** The loop finds the first phase whose cumulative end lies beyond
    [elapsed], and no other. *)
Lemma phase_loop_first elapsed ps i :
  phase_loop elapsed ps 0 0 = Some i ↔
  (i < length ps)%nat
  ∧ elapsed < inject_Z (cumulative_through ps i)
  ∧ ∀ j, (j < i)%nat → ¬ elapsed < inject_Z (cumulative_through ps j).
Proof.
  split.
  - intros (k & -> & Hk & Hlt & Hfirst)%phase_loop_Some.
    rewrite Z.add_0_l in Hlt. rewrite Nat.add_0_l.
    split; [done|]. split; [done|].
    intros j Hj Hc. specialize (Hfirst j Hj).
    rewrite Z.add_0_l in Hfirst. lra.
  - intros (Hi & Hlt & Hfirst).
    destruct (phase_loop elapsed ps 0 0) as [i'|] eqn:E.
    + apply phase_loop_Some in E as (k & -> & Hk & Hlt' & Hfirst').
      rewrite Z.add_0_l in Hlt'. rewrite Nat.add_0_l. f_equal.
      destruct (Nat.lt_trichotomy k i) as [H|[H|H]]; [|done|].
      * by destruct (Hfirst k H).
      * specialize (Hfirst' i H). rewrite Z.add_0_l in Hfirst'. lra.
    + pose proof (phase_loop_None _ _ _ _ E i Hi) as H.
      rewrite Z.add_0_l in H. lra.
Qed.



End PhaseFacts.

(** ** Facts about metric names *)

Section NameFacts.

Lemma append_length a b :
  String.length (a +:+ b) = (String.length a + String.length b)%nat.
Proof. induction a as [|c a IH]; [done|]. rewrite append_cons. simpl. lia. Qed.

Lemma append_assoc a b c : (a +:+ b) +:+ c = a +:+ b +:+ c.
Proof.
  induction a as [|x a IH]; [done|]. rewrite !append_cons. by f_equal.
Qed.

Lemma append_inj_r a b t : a +:+ t = b +:+ t → a = b.
Proof.
  revert b. induction a as [|x a IH]; intros [|y b] H.
  - done.
  - apply (f_equal String.length) in H.
    rewrite !append_length in H. simpl in H. lia.
  - apply (f_equal String.length) in H.
    rewrite !append_length in H. simpl in H. lia.
  - rewrite !append_cons in H. injection H as -> H. f_equal. by apply IH.
Qed.

Lemma phase_key_scenario_key api scenario i :
  phase_key api scenario i
  = scenario_key api scenario +:+ "_phase" +:+ pretty i.
Proof. unfold phase_key, scenario_key. by rewrite !append_assoc. Qed.

(** Splitting an append at a known length. *)
Lemma append_inj_length a b x y :
  a +:+ x = b +:+ y → String.length a = String.length b → a = b ∧ x = y.
Proof.
  revert b. induction a as [|c a IH]; intros [|d b] H Hlen; try done.
  rewrite !append_cons in H. injection H as -> H.
  destruct (IH b H) as [-> ->]; [by injection Hlen|done].
Qed.

Lemma tracked_pretty_length code :
  code ∈ statusCodes_tracked → String.length (pretty code) = 3%nat.
Proof.
  unfold statusCodes_tracked. rewrite !elem_of_cons, elem_of_nil.
  intros H. repeat (destruct H as [->|H]; [reflexivity|]). done.
Qed.

Lemma scenario_key_ne_phase_key api scenario i :
  scenario_key api scenario ≠ phase_key api scenario i.
Proof.
  rewrite phase_key_scenario_key. intros H.
  apply (f_equal String.length) in H. rewrite append_length in H.
  rewrite append_length in H. simpl in H. lia.
Qed.

Lemma count_name_inj k k' : count_name k = count_name k' → k = k'.
Proof. apply String.app_inj. Qed.

Lemma failed_name_inj k k' : failed_name k = failed_name k' → k = k'.
Proof. apply String.app_inj. Qed.

Lemma duration_name_inj k k' : duration_name k = duration_name k' → k = k'.
Proof. apply String.app_inj. Qed.

Lemma status_name_inj c c' k k' :
  c ∈ statusCodes_tracked → c' ∈ statusCodes_tracked →
  status_name c k = status_name c' k' → c = c' ∧ k = k'.
Proof.
  intros Hc Hc' H. unfold status_name in H. apply String.app_inj in H.
  apply append_inj_length in H as [H1 H2].
  - split; [by apply (inj pretty)|by apply String.app_inj in H2].
  - by rewrite !tracked_pretty_length.
Qed.

(** Names of different kinds never coincide: they differ in their first
    letter. *)
Lemma names_apart k k' c :
  count_name k ≠ failed_name k' ∧ count_name k ≠ duration_name k'
  ∧ count_name k ≠ status_name c k' ∧ failed_name k ≠ duration_name k'
  ∧ failed_name k ≠ status_name c k' ∧ duration_name k ≠ status_name c k'.
Proof.
  unfold count_name, failed_name, duration_name, status_name.
  repeat split; intros H; discriminate H.
Qed.

End NameFacts.

(** ** Facts about the registry *)

Section RegistryFacts.

(** A loop of property writes [m[x] = f(x)]. *)
Lemma foldl_insert_lookup `{Countable K} {V} (f : K → V) (l : list K)
    (m : gmap K V) (k : K) :
  foldl (λ m x, <[x := f x]> m) m l !! k
  = if decide (k ∈ l) then Some (f k) else m !! k.
Proof.
  revert m. induction l as [|x l IH]; intros m; cbn [foldl].
  - rewrite decide_False; [done|]. apply not_elem_of_nil.
  - rewrite IH. destruct (decide (k ∈ l)) as [Hin|Hnin].
    + rewrite decide_True; [done|]. rewrite elem_of_cons. by right.
    + destruct (decide (k = x)) as [->|Hne].
      * rewrite decide_True by (rewrite elem_of_cons; by left).
        by rewrite lookup_insert_eq.
      * rewrite lookup_insert_ne by done.
        rewrite decide_False; [done|]. rewrite elem_of_cons. by intros [?|?].
Qed.

Lemma statusCodes_lookup key code :
  statusCodes (newMetricSet key) !! code
  = if decide (code ∈ statusCodes_tracked)
    then Some (status_name code key) else None.
Proof.
  unfold newMetricSet. cbn [statusCodes].
  by rewrite (foldl_insert_lookup (λ c, status_name c key)).
Qed.

Lemma init_apis_lookup apis scenario obj api :
  init_apis apis scenario obj !! api
  = if decide (api ∈ apis)
    then Some (mkSlot (Some (newMetricSet (scenario_key api scenario))) ∅)
    else obj !! api.
Proof.
  unfold init_apis.
  by rewrite (foldl_insert_lookup
    (λ a, mkSlot (Some (newMetricSet (scenario_key a scenario))) ∅)).
Qed.

Lemma init_phase_table_lookup apis scenario i api :
  init_phase_table apis scenario i !! api
  = if decide (api ∈ apis)
    then Some (newMetricSet (phase_key api scenario i)) else None.
Proof.
  unfold init_phase_table.
  by rewrite (foldl_insert_lookup (λ a, newMetricSet (phase_key a scenario i))).
Qed.

Lemma init_phases_other apis scenario n obj k :
  k ≠ "phases" → init_phases apis scenario n obj !! k = obj !! k.
Proof.
  intros Hk. unfold init_phases. revert obj.
  induction (seq 0 n) as [|i l IH]; intros obj; simpl; [done|].
  rewrite IH. unfold set_phase_table. by rewrite lookup_alter_ne.
Qed.

Lemma init_phases_phases apis scenario n obj slot :
  obj !! "phases" = Some slot →
  ∃ slot', init_phases apis scenario n obj !! "phases" = Some slot'
    ∧ metric slot' = metric slot
    ∧ ∀ i, table slot' !! i
           = if decide (i < n)%nat
             then Some (init_phase_table apis scenario i)
             else table slot !! i.
Proof.
  intros Hslot. unfold init_phases. induction n as [|n IH].
  - exists slot. split; [done|]. split; [done|]. intros i.
    rewrite decide_False; [done|lia].
  - destruct IH as (slot' & Hl & Hm & Ht).
    rewrite seq_S, foldl_app. simpl. unfold set_phase_table at 1.
    rewrite lookup_alter_eq, Hl. simpl. eexists. split; [done|].
    split; [done|]. intros i. simpl.
    destruct (decide (i = n)) as [->|Hne].
    + rewrite lookup_insert_eq, decide_True; [done|lia].
    + rewrite lookup_insert_ne by done. rewrite Ht.
      repeat case_decide; try done; lia.
Qed.

Lemma initializeMetrics_lookup apis scenarios cfg scenario :
  initializeMetrics apis scenarios cfg !! scenario
  = if decide (scenario ∈ scenarios)
    then Some (scenario_object apis cfg scenario) else None.
Proof.
  unfold initializeMetrics.
  by rewrite (foldl_insert_lookup (scenario_object apis cfg)).
Qed.

(** The object under the property [phases] of a scenario: its metric
    fields are those of an API that happens to be called "phases", if one is
    registered, and its numeric properties are the declared phases. *)
Lemma scenario_object_phases apis cfg scenario :
  ∃ slot, scenario_object apis cfg scenario !! "phases" = Some slot
    ∧ metric slot
      = (if decide ("phases" ∈ apis)
         then Some (newMetricSet (scenario_key "phases" scenario)) else None)
    ∧ ∀ i, table slot !! i
           = match cfg !! scenario ≫= phases with
             | Some ps =>
                 if decide (i < length ps)%nat
                 then Some (init_phase_table apis scenario i) else None
             | None => None
             end.
Proof.
  unfold scenario_object.
  pose proof (init_apis_lookup apis scenario
                {[ "phases" := mkSlot None ∅ ]} "phases") as H0.
  rewrite lookup_singleton_eq in H0.
  destruct (decide ("phases" ∈ apis)) as [Hin|Hnin];
    (destruct (cfg !! scenario ≫= phases) as [ps|];
     [ destruct (init_phases_phases apis scenario (length ps) _ _ H0)
         as (slot' & Hl & Hm & Ht);
       exists slot'; split; [done|]; split; [done|]; intros i;
       rewrite Ht; by case_decide
     | eexists; split; [exact H0|]; done ]).
Qed.

Lemma scenario_object_api apis cfg scenario api :
  api ∈ apis →
  ∃ slot, scenario_object apis cfg scenario !! api = Some slot
    ∧ metric slot = Some (newMetricSet (scenario_key api scenario)).
Proof.
  intros Hapi. destruct (decide (api = "phases")) as [->|Hne].
  - destruct (scenario_object_phases apis cfg scenario) as (slot & Hl & Hm & _).
    exists slot. split; [done|]. by rewrite Hm, decide_True.
  - unfold scenario_object.
    pose proof (init_apis_lookup apis scenario
                  {[ "phases" := mkSlot None ∅ ]} api) as H0.
    rewrite decide_True in H0 by done.
    destruct (cfg !! scenario ≫= phases) as [ps|].
    + rewrite init_phases_other by done. eauto.
    + eauto.
Qed.

Lemma scenario_object_unknown apis cfg scenario api :
  api ∉ apis → api ≠ "phases" →
  scenario_object apis cfg scenario !! api = None.
Proof.
  intros Hapi Hne. unfold scenario_object.
  pose proof (init_apis_lookup apis scenario
                {[ "phases" := mkSlot None ∅ ]} api) as H0.
  rewrite decide_False, lookup_singleton_ne in H0 by done.
  destruct (cfg !! scenario ≫= phases) as [ps|]; [|done].
  by rewrite init_phases_other.
Qed.

Lemma scenario_slot_registered apis scenarios cfg scenario api :
  scenario ∈ scenarios → api ∈ apis →
  ∃ slot,
    scenario_slot (initializeMetrics apis scenarios cfg) scenario api
    = Some slot
    ∧ metric slot = Some (newMetricSet (scenario_key api scenario)).
Proof.
  intros Hs Ha. unfold scenario_slot.
  rewrite initializeMetrics_lookup, decide_True by done. simpl.
  by apply scenario_object_api.
Qed.

Lemma scenario_slot_unknown apis scenarios cfg scenario api :
  scenario ∉ scenarios ∨ ((api ∉ apis) ∧ api ≠ "phases") →
  scenario_slot (initializeMetrics apis scenarios cfg) scenario api = None.
Proof.
  intros H. unfold scenario_slot. rewrite initializeMetrics_lookup.
  case_decide; [|done]. simpl.
  destruct H as [?|[? ?]]; [done|]. by apply scenario_object_unknown.
Qed.

Lemma scenario_slot_phases apis scenarios cfg scenario :
  scenario ∈ scenarios → "phases" ∉ apis →
  ∃ slot,
    scenario_slot (initializeMetrics apis scenarios cfg) scenario "phases"
    = Some slot
    ∧ metric slot = None.
Proof.
  intros Hs Ha. unfold scenario_slot.
  rewrite initializeMetrics_lookup, decide_True by done. simpl.
  destruct (scenario_object_phases apis cfg scenario) as (slot & Hl & Hm & _).
  exists slot. split; [done|]. by rewrite Hm, decide_False.
Qed.

Lemma phase_metric_lookup apis scenarios cfg scenario api i :
  phase_metric (initializeMetrics apis scenarios cfg) scenario api i
  = if decide (scenario ∈ scenarios) then
      match cfg !! scenario ≫= phases with
      | Some ps =>
          if decide (i < length ps)%nat then
            if decide (api ∈ apis)
            then Some (newMetricSet (phase_key api scenario i)) else None
          else None
      | None => None
      end
    else None.
Proof.
  unfold phase_metric. rewrite initializeMetrics_lookup.
  case_decide; [|done]. simpl.
  destruct (scenario_object_phases apis cfg scenario) as (slot & -> & _ & Ht).
  simpl. rewrite Ht.
  destruct (cfg !! scenario ≫= phases) as [ps|]; [|done].
  case_decide; [|done]. simpl. apply init_phase_table_lookup.
Qed.

End RegistryFacts.

(** ** Facts about the recorder *)

Section RecorderFacts.

Lemma samples_add name v st n :
  samples (add name v st) n
  = samples st n ++ (if decide (n = name) then [v] else []).
Proof.
  unfold add, samples at 1. case_decide as Hn.
  - subst. by rewrite lookup_insert_eq.
  - rewrite lookup_insert_ne by done. by rewrite app_nil_r.
Qed.

Lemma samples_record_on key res st n :
  samples (record_on (newMetricSet key) res st) n
  = samples st n ++ contribution key res n.
Proof.
  unfold record_on, contribution. rewrite statusCodes_lookup.
  cbn [count failed duration newMetricSet].
  destruct (decide (400 ≤ status res)) as [Hs|Hs].
  - destruct (decide (status res ∈ statusCodes_tracked)) as [Ht|Ht].
    + rewrite !samples_add, <- !app_assoc. do 4 f_equal.
      apply decide_ext. tauto.
    + rewrite !samples_add, <- !app_assoc.
      rewrite (decide_False (P := _ ∧ _)) by tauto. by rewrite app_nil_r.
  - rewrite !samples_add, <- !app_assoc. by rewrite app_nil_r.
Qed.

Lemma contribution_count key key' res :
  contribution key res (count_name key')
  = if decide (key' = key) then [1%Q] else [].
Proof.
  unfold contribution.
  destruct (names_apart key' key (status res)) as (? & ? & ? & _).
  rewrite (decide_False (P := count_name key' = duration_name key)) by done.
  rewrite (decide_False (P := count_name key' = failed_name key)) by done.
  rewrite (decide_False (P := _ ∧ _)) by tauto.
  destruct (decide (key' = key)) as [->|Hne].
  - rewrite decide_True by done. by case_decide.
  - rewrite decide_False by (by intros ?%count_name_inj). by case_decide.
Qed.

Lemma contribution_duration key key' res :
  contribution key res (duration_name key')
  = if decide (key' = key) then [timings_duration res] else [].
Proof.
  unfold contribution.
  destruct (names_apart key key' (status res)) as (_ & ? & _ & ? & _ & _).
  destruct (names_apart key' key (status res)) as (_ & _ & _ & _ & _ & ?).
  rewrite (decide_False (P := duration_name key' = count_name key)) by done.
  rewrite (decide_False (P := duration_name key' = failed_name key)) by done.
  rewrite (decide_False (P := _ ∧ _)) by tauto.
  destruct (decide (key' = key)) as [->|Hne].
  - rewrite decide_True by done. by case_decide.
  - rewrite decide_False by (by intros ?%duration_name_inj). by case_decide.
Qed.

Lemma contribution_failed key key' res :
  contribution key res (failed_name key')
  = if decide (key' = key ∧ 400 ≤ status res) then [1%Q] else [].
Proof.
  unfold contribution.
  destruct (names_apart key key' (status res)) as (? & _).
  destruct (names_apart key' key (status res)) as (_ & _ & _ & ? & ? & _).
  rewrite (decide_False (P := failed_name key' = count_name key)) by done.
  rewrite (decide_False (P := failed_name key' = duration_name key)) by done.
  rewrite (decide_False (P := _ ∧ failed_name key' = _)) by tauto.
  destruct (decide (400 ≤ status res)) as [Hs|Hs].
  - destruct (decide (key' = key)) as [->|Hne].
    + rewrite !decide_True by done. done.
    + rewrite decide_False by (by intros ?%failed_name_inj).
      rewrite decide_False by tauto. done.
  - rewrite decide_False by tauto. done.
Qed.

Lemma contribution_status key key' res code :
  code ∈ statusCodes_tracked →
  contribution key res (status_name code key')
  = if decide (key' = key ∧ 400 ≤ status res ∧ code = status res)
    then [1%Q] else [].
Proof.
  intros Hcode. unfold contribution.
  destruct (names_apart key key' code) as (_ & _ & ? & _ & ? & ?).
  rewrite (decide_False (P := status_name code key' = count_name key)) by done.
  rewrite (decide_False (P := status_name code key' = duration_name key)) by done.
  rewrite (decide_False (P := status_name code key' = failed_name key)) by done.
  destruct (decide (400 ≤ status res)) as [Hs|Hs].
  - simpl. apply decide_ext. split.
    + intros [Ht [-> ->]%status_name_inj]; done.
    + intros (-> & _ & ->). done.
  - rewrite decide_False by tauto. done.
Qed.

Lemma counter_value_app st st' name l :
  samples st' name = samples st name ++ l →
  (counter_value st' name == counter_value st name + foldr Qplus 0 l)%Q.
Proof.
  unfold counter_value. intros ->.
  induction (samples st name) as [|x xs IH]; simpl; [ring|].
  rewrite IH. ring.
Qed.

Local Ltac in_names :=
  rewrite elem_of_app; first
    [ left; rewrite !elem_of_cons; tauto
    | right; rewrite list_elem_of_fmap; eauto ].

(** Recording under one key changes the metrics of that key as described
    and leaves those of a different key alone. *)
Lemma contribution_level_updated st st' key res :
  (∀ n, n ∈ metric_names key →
        samples st' n = samples st n ++ contribution key res n) →
  level_updated st st' key res.
Proof.
  unfold metric_names. intros H.
  assert (∀ code, code ∈ statusCodes_tracked →
    samples st' (status_name code key)
    = samples st (status_name code key)
      ++ contribution key res (status_name code key)) as Hst.
  { intros code Hc. apply H. in_names. }
  unfold level_updated. repeat split.
  - rewrite (counter_value_app st st' _ [1%Q]); [simpl; ring|].
    rewrite H by in_names.
    by rewrite contribution_count, decide_True.
  - rewrite H by in_names.
    by rewrite contribution_duration, decide_True.
  - intros Hs. rewrite (counter_value_app st st' _ [1%Q]); [simpl; ring|].
    rewrite H by in_names.
    by rewrite contribution_failed, decide_True.
  - intros Hs. rewrite H by in_names.
    rewrite contribution_failed, decide_False by lia. by rewrite app_nil_r.
  - intros Hs ->. rewrite (counter_value_app st st' _ [1%Q]); [simpl; ring|].
    rewrite Hst by done. by rewrite contribution_status, decide_True.
  - intros Hs. rewrite Hst by done.
    rewrite contribution_status, decide_False by done + lia.
    by rewrite app_nil_r.
Qed.

Lemma contribution_level_unchanged st st' key key' res :
  key' ≠ key →
  (∀ n, n ∈ metric_names key' →
        samples st' n = samples st n ++ contribution key res n) →
  level_unchanged st st' key'.
Proof.
  unfold metric_names. intros Hne H. unfold level_unchanged. repeat split.
  - rewrite H by in_names.
    rewrite contribution_count, decide_False by done. by rewrite app_nil_r.
  - rewrite H by in_names.
    rewrite contribution_duration, decide_False by done. by rewrite app_nil_r.
  - rewrite H by in_names.
    rewrite contribution_failed, decide_False by tauto. by rewrite app_nil_r.
  - intros code Hc. rewrite H.
    + rewrite contribution_status, decide_False by tauto.
      by rewrite app_nil_r.
    + in_names.
Qed.

Lemma counter_value_empty name : counter_value ∅ name = 0%Q.
Proof. unfold counter_value, samples. by rewrite lookup_empty. Qed.

Lemma counter_value_samples_eq st st' name :
  samples st' name = samples st name →
  counter_value st' name = counter_value st name.
Proof. unfold counter_value. by intros ->. Qed.

Lemma contribution_other key key' res n :
  key' ≠ key → n ∈ metric_names key' → contribution key res n = [].
Proof.
  intros Hne. unfold metric_names.
  rewrite elem_of_app, !elem_of_cons, elem_of_nil, list_elem_of_fmap.
  intros [[->|[->|[->|[]]]]|(code & -> & Hc)].
  - by rewrite contribution_count, decide_False.
  - by rewrite contribution_duration, decide_False.
  - rewrite contribution_failed, decide_False; [done|tauto].
  - rewrite contribution_status, decide_False; [done|tauto|done].
Qed.

Lemma contribution_outside key res n :
  n ∉ metric_names key → contribution key res n = [].
Proof.
  unfold metric_names.
  rewrite elem_of_app, !elem_of_cons, elem_of_nil, list_elem_of_fmap.
  intros Hn. unfold contribution.
  rewrite (decide_False (P := n = count_name key)) by tauto.
  rewrite (decide_False (P := n = duration_name key)) by tauto.
  rewrite (decide_False (P := n = failed_name key)) by tauto.
  rewrite (decide_False (P := _ ∧ _)).
  - by case_decide.
  - intros [Ht ->]. apply Hn. right. eauto.
Qed.

Lemma recordMetrics_both apis scenarios cfg api scenario ps i res st :
  api ∈ apis → scenario ∈ scenarios →
  cfg !! scenario ≫= phases = Some ps → (i < length ps)%nat →
  recordMetrics (initializeMetrics apis scenarios cfg) api scenario
    (Some i) res st
  = Returns (record_on (newMetricSet (phase_key api scenario i)) res
               (record_on (newMetricSet (scenario_key api scenario)) res st)).
Proof.
  intros Ha Hs Hps Hi. unfold recordMetrics.
  destruct (scenario_slot_registered apis scenarios cfg scenario api Hs Ha)
    as (slot & -> & ->).
  simpl. rewrite phase_metric_lookup, Hps.
  by rewrite !decide_True by done.
Qed.

Lemma recordMetrics_scenario_only apis scenarios cfg api scenario phaseIndex
    res st :
  api ∈ apis → scenario ∈ scenarios →
  match phaseIndex with
  | Some i =>
      phase_metric (initializeMetrics apis scenarios cfg) scenario api i
      = None
  | None => True
  end →
  recordMetrics (initializeMetrics apis scenarios cfg) api scenario
    phaseIndex res st
  = Returns (record_on (newMetricSet (scenario_key api scenario)) res st).
Proof.
  intros Ha Hs Hp. unfold recordMetrics.
  destruct (scenario_slot_registered apis scenarios cfg scenario api Hs Ha)
    as (slot & -> & ->).
  simpl. destruct phaseIndex as [i|]; [|done]. by rewrite Hp.
Qed.

(** The guard of the first block lets the object under [phases] through. *)
Lemma recordMetrics_phases_throws apis scenarios cfg scenario phaseIndex
    res st :
  scenario ∈ scenarios → "phases" ∉ apis →
  recordMetrics (initializeMetrics apis scenarios cfg) "phases" scenario
    phaseIndex res st
  = Throws_TypeError.
Proof.
  intros Hs Ha. unfold recordMetrics.
  destruct (scenario_slot_phases apis scenarios cfg scenario Hs Ha)
    as (slot & -> & ->).
  done.
Qed.

(** For every other unregistered key the call changes nothing. *)
Lemma recordMetrics_unregistered_noop apis scenarios cfg api scenario
    phaseIndex res st :
  scenario ∉ scenarios ∨ ((api ∉ apis) ∧ api ≠ "phases") →
  recordMetrics (initializeMetrics apis scenarios cfg) api scenario
    phaseIndex res st
  = Returns st.
Proof.
  intros H. unfold recordMetrics.
  rewrite scenario_slot_unknown by done. simpl.
  destruct phaseIndex as [i|]; [|done].
  rewrite phase_metric_lookup.
  destruct H as [?|[? ?]].
  - by rewrite decide_False.
  - case_decide; [|done].
    destruct (cfg !! scenario ≫= phases); [|done].
    case_decide; [|done]. by rewrite decide_False.
Qed.

Lemma samples_recorded_both key key' res st n :
  samples (record_on (newMetricSet key') res
             (record_on (newMetricSet key) res st)) n
  = samples st n ++ contribution key res n ++ contribution key' res n.
Proof. by rewrite !samples_record_on, app_assoc. Qed.

Lemma record_both_updates key key' res st :
  key ≠ key' →
  let st' := record_on (newMetricSet key') res
               (record_on (newMetricSet key) res st) in
  level_updated st st' key res ∧ level_updated st st' key' res.
Proof.
  intros Hne st'. split.
  - apply contribution_level_updated. intros n Hn. unfold st'.
    rewrite samples_recorded_both.
    rewrite (contribution_other key' key res n) by done.
    by rewrite app_nil_r.
  - apply contribution_level_updated. intros n Hn. unfold st'.
    rewrite samples_recorded_both.
    by rewrite (contribution_other key key' res n).
Qed.

Lemma inject_Z_length_cons {A} (x : A) (l : list A) :
  (inject_Z (Z.of_nat (length (x :: l)))
   == inject_Z (Z.of_nat (length l)) + 1)%Q.
Proof.
  cbn [length]. rewrite Nat2Z.inj_succ, <- Z.add_1_r, inject_Z_plus. reflexivity.
Qed.

(** Requests without failure, recorded one after the other at both
    granularities. *)
Lemma recordAll_successes metrics api scenario phaseIndex key key' rs st :
  (∀ res st,
     recordMetrics metrics api scenario phaseIndex res st
     = Returns (record_on (newMetricSet key') res
                  (record_on (newMetricSet key) res st))) →
  key ≠ key' →
  Forall (λ r, status r < 400) rs →
  ∃ st',
    recordAll metrics api scenario phaseIndex rs st = Returns st'
    ∧ (counter_value st' (count_name key)
       == counter_value st (count_name key)
          + inject_Z (Z.of_nat (length rs)))%Q
    ∧ samples st' (failed_name key) = samples st (failed_name key)
    ∧ (counter_value st' (count_name key')
       == counter_value st (count_name key')
          + inject_Z (Z.of_nat (length rs)))%Q
    ∧ samples st' (failed_name key') = samples st (failed_name key').
Proof.
  intros Hrec Hne Hrs. revert st.
  induction Hrs as [|r rs Hr Hrs IH]; intros st.
  - exists st. split; [done|]. simpl.
    repeat split; try done; unfold inject_Z; ring.
  - cbn [recordAll]. rewrite Hrec. cbn [bind].
    destruct (IH (record_on (newMetricSet key') r
                    (record_on (newMetricSet key) r st)))
      as (st' & -> & Hc & Hf & Hc' & Hf').
    destruct (record_both_updates key key' r st Hne)
      as [(Hu1 & _ & _ & Hu4 & _) (Hv1 & _ & _ & Hv4 & _)].
    exists st'. split; [done|].
    rewrite Hc, Hc', Hf, Hf', Hu1, Hv1, Hu4, Hv4 by done.
    rewrite !inject_Z_length_cons. repeat split; try done; ring.
Qed.

End RecorderFacts.

(** ** Facts about the aggregator *)

Section AggregatorFacts.

Import Report.
Local Open Scope Q_scope.

Lemma toFixed2_comp x y : x == y → toFixed2 x = toFixed2 y.
Proof.
  intros H. unfold toFixed2.
  assert (Qfloor (Qabs x * 100 + (1 # 2)) = Qfloor (Qabs y * 100 + (1 # 2)))
    as -> by (by rewrite H).
  destruct (Qlt_le_dec x 0), (Qlt_le_dec y 0); try done; lra.
Qed.

Lemma foldl_push {A B} (f : A → B) (l : list A) (rows : list B) :
  foldl (λ rows x, rows ++ [f x]) rows l = rows ++ (f <$> l).
Proof.
  revert rows. induction l as [|x l IH]; intros rows; simpl.
  - by rewrite app_nil_r.
  - rewrite IH. by rewrite <- app_assoc.
Qed.

Lemma Qsum_cons x l : Qsum (x :: l) = x + Qsum l.
Proof. reflexivity. Qed.

Lemma foldl_Qplus {A} (f : A → Q) (l : list A) (a : Q) :
  foldl (λ sum x, sum + f x) a l == a + Qsum (f <$> l).
Proof.
  revert a. induction l as [|x l IH]; intros a.
  - cbn. ring.
  - cbn [foldl]. rewrite IH, fmap_cons, Qsum_cons. ring.
Qed.

Lemma truthy_false x : truthy x = false → x == 0.
Proof.
  unfold truthy. intros H. apply negb_false_iff in H.
  by apply Qeq_bool_iff.
Qed.

Lemma truthy_true x : truthy x = true → ¬ x == 0.
Proof.
  unfold truthy. intros H Hx. apply negb_true_iff in H.
  apply Qeq_bool_iff in Hx. congruence.
Qed.

(** [if (c) total += c] adds [c || 0]. *)
Lemma add_if_truthy total (c : option Q) :
  match c with
  | Some v => if truthy v then total + v else total
  | None => total
  end == total + or_zero c.
Proof.
  destruct c as [v|]; simpl; [|ring].
  destruct (truthy v); ring.
Qed.















Lemma direct_row_summary data SLA a key :
  ∃ mn mx av q95 q99,
    direct_row data SLA a key
    = summaryRow SLA a mn mx av (observed_p90 data key) q95 q99
        (or_zero (metric_count data (count_name key)))
        (or_zero (metric_count data (failed_name key))).
Proof.
  unfold direct_row, observed_p90.
  destruct (metric_values data (duration_name key)) as [dv|];
    cbn [mbind option_bind]; eauto 10.
Qed.

Lemma buildScenarioTable_rows data scenario SLA apis :
  buildScenarioTable data scenario SLA apis
  = (λ a, direct_row data SLA a (scenario_key a scenario)) <$> apis.
Proof.
  unfold buildScenarioTable.
  by rewrite (foldl_push (λ a, direct_row data SLA a (scenario_key a scenario))).
Qed.

Lemma buildPhaseTable_rows data scenario phaseIndex SLA apis :
  buildPhaseTable data scenario phaseIndex SLA apis
  = (λ a, direct_row data SLA a (phase_key a scenario phaseIndex)) <$> apis.
Proof.
  unfold buildPhaseTable.
  by rewrite (foldl_push
    (λ a, direct_row data SLA a (phase_key a scenario phaseIndex))).
Qed.

Lemma buildOverallAggregateTable_rows data SLA apis scenarios :
  buildOverallAggregateTable data SLA apis scenarios
  = overall_row data SLA scenarios <$> apis.
Proof.
  unfold buildOverallAggregateTable.
  by rewrite (foldl_push (overall_row data SLA scenarios)).
Qed.


(** *** The error distribution *)

Lemma foldl_ext_in {A B} (f g : A → B → A) (l : list B) (a : A) :
  (∀ a x, x ∈ l → f a x = g a x) → foldl f a l = foldl g a l.
Proof.
  revert a. induction l as [|x l IH]; intros a H; [done|].
  cbn [foldl]. rewrite H by (rewrite elem_of_cons; tauto).
  apply IH. intros a' y Hy. apply H. rewrite elem_of_cons. tauto.
Qed.

Lemma foldl_bind {A B} (g : A → list B) (l : list A) (rows : list B) :
  foldl (λ rows x, rows ++ g x) rows l = rows ++ (l ≫= g).
Proof.
  revert rows. induction l as [|x l IH]; intros rows; cbn [foldl].
  - by rewrite app_nil_r.
  - rewrite IH, bind_cons. by rewrite <- app_assoc.
Qed.

Lemma error_rows_flat data apis scenarios :
  error_rows data apis scenarios
  = apis ≫= λ a, statusCodes_tracked ≫= error_cell data scenarios a.
Proof.
  unfold error_rows.
  rewrite <- (app_nil_l (apis ≫= _)), <- foldl_bind.
  apply foldl_ext_in. intros rows a _.
  rewrite <- foldl_bind. apply foldl_ext_in. intros rows' code _.
  unfold error_cell. cbv zeta.
  destruct (Qlt_le_dec 0 _); [done|by rewrite app_nil_r].
Qed.

Lemma error_count_total data a code scenarios :
  error_count data a code scenarios == status_total data a code scenarios.
Proof.
  unfold error_count, status_total.
  rewrite (foldl_Qplus (scenario_status_count data a code)). ring.
Qed.

Lemma elem_of_error_rows data apis scenarios r :
  r ∈ error_rows data apis scenarios ↔
  r.1.1 ∈ apis ∧ r.1.2 ∈ statusCodes_tracked
  ∧ r.2 = error_count data r.1.1 r.1.2 scenarios ∧ 0 < r.2.
Proof.
  rewrite error_rows_flat, list_elem_of_bind. split.
  - intros (a & (code & Hr & Hc)%list_elem_of_bind & Ha).
    unfold error_cell in Hr. cbv zeta in Hr.
    destruct (Qlt_le_dec 0 _) as [Hpos|]; [|by apply elem_of_nil in Hr].
    apply list_elem_of_singleton in Hr as ->. done.
  - destruct r as [[a code] c]. cbn [fst snd]. intros (Ha & Hc & -> & Hpos).
    exists a. split; [|done]. apply list_elem_of_bind. exists code.
    split; [|done]. unfold error_cell. cbv zeta.
    destruct (Qlt_le_dec 0 _) as [|Hle]; [apply list_elem_of_singleton; done|].
    lra.
Qed.



Lemma Qsum_ext {A} (f g : A → Q) (l : list A) :
  (∀ x, x ∈ l → f x == g x) → Qsum (f <$> l) == Qsum (g <$> l).
Proof.
  induction l as [|x l IH]; intros H; [reflexivity|].
  rewrite !fmap_cons, !Qsum_cons, H, IH; [reflexivity| |].
  - intros y Hy. apply H. rewrite elem_of_cons. tauto.
  - rewrite elem_of_cons. tauto.
Qed.



Lemma fmap_of_bind {A B C} (f : B → C) (g : A → list B) (l : list A) :
  f <$> (l ≫= g) = l ≫= λ x, f <$> g x.
Proof.
  induction l as [|x l IH]; [done|].
  by rewrite !bind_cons, fmap_app, IH.
Qed.










Lemma or_zero_Some q : or_zero (Some q) == q.
Proof.
  cbn. destruct (truthy q) eqn:E; [reflexivity|].
  apply truthy_false in E. by rewrite E.
Qed.

End AggregatorFacts.

(** * Main results *)

(** ** Duration parser *)



(** ** Phase resolver *)





(** ** Recorder *)

(** C4: for a registered API and scenario and a declared phase index, one
    call of [recordMetrics] returns normally, adds 1 to the request counter
    and appends the duration at the scenario level and at the phase level;
    for a status of 400 or above it adds exactly 1 to both failure counters
    and, when the status is a tracked code, exactly 1 to that code's counter
    at both levels, leaving the counters of the other codes untouched.  So
    N calls with statuses below 400, starting from an empty store, give a
    count of N and a failure count of 0 at both levels, and one call with
    status 500 adds 1 to both failure counters and to both 500 counters and
    to no other status counter. *)
Theorem recordMetrics_registered apis scenarios scenarioConfig api scenario
    ps phaseIndex res st :
  api ∈ apis → scenario ∈ scenarios →
  scenarioConfig !! scenario ≫= phases = Some ps →
  (phaseIndex < length ps)%nat →
  let metrics := initializeMetrics apis scenarios scenarioConfig in
  let skey := scenario_key api scenario in
  let pkey := phase_key api scenario phaseIndex in
  (∃ st',
     recordMetrics metrics api scenario (Some phaseIndex) res st = Returns st'
     ∧ level_updated st st' skey res ∧ level_updated st st' pkey res)
  ∧ (∀ rs, Forall (λ r, status r < 400) rs →
       ∃ stN,
         recordAll metrics api scenario (Some phaseIndex) rs ∅ = Returns stN
         ∧ (counter_value stN (count_name skey)
            == inject_Z (Z.of_nat (length rs)))%Q
         ∧ (counter_value stN (failed_name skey) == 0)%Q
         ∧ (counter_value stN (count_name pkey)
            == inject_Z (Z.of_nat (length rs)))%Q
         ∧ (counter_value stN (failed_name pkey) == 0)%Q)
  ∧ (status res = 500 →
     ∃ st',
       recordMetrics metrics api scenario (Some phaseIndex) res st
       = Returns st'
       ∧ ∀ key, key = skey ∨ key = pkey →
           (counter_value st' (failed_name key)
            == counter_value st (failed_name key) + 1)%Q
           ∧ (counter_value st' (status_name 500 key)
              == counter_value st (status_name 500 key) + 1)%Q
           ∧ ∀ code, code ∈ statusCodes_tracked → code ≠ 500 →
               samples st' (status_name code key)
               = samples st (status_name code key)).
Proof.
  intros Ha Hs Hps Hi metrics skey pkey.
  pose proof (scenario_key_ne_phase_key api scenario phaseIndex) as Hne.
  pose proof (recordMetrics_both apis scenarios scenarioConfig api scenario
                ps phaseIndex) as Hrec.
  split; [|split].
  - eexists. split; [by apply Hrec|]. by apply record_both_updates.
  - intros rs Hrs.
    destruct (recordAll_successes metrics api scenario (Some phaseIndex)
                skey pkey rs ∅) as (stN & HN & Hc & Hf & Hc' & Hf');
      [intros; by apply Hrec|done|done|].
    exists stN. split; [done|].
    rewrite (counter_value_samples_eq _ _ _ Hf),
      (counter_value_samples_eq _ _ _ Hf'), Hc, Hc', !counter_value_empty.
    repeat split; ring.
  - intros H500. eexists. split; [by apply Hrec|].
    destruct (record_both_updates skey pkey res st Hne)
      as [(_ & _ & Hf & _ & Hc) (_ & _ & Hf' & _ & Hc')].
    assert (500 ∈ statusCodes_tracked) as H500in
      by (unfold statusCodes_tracked; rewrite !elem_of_cons; tauto).
    intros key [-> | ->].
    + split; [apply Hf; lia|]. split.
      * apply (Hc 500 H500in); [lia|done].
      * intros code Hcode Hn. apply (Hc code Hcode). right. lia.
    + split; [apply Hf'; lia|]. split.
      * apply (Hc' 500 H500in); [lia|done].
      * intros code Hcode Hn. apply (Hc' code Hcode). right. lia.
Qed.

Lemma recordMetrics_registered_witness :
  "home" ∈ ["home"] ∧ "load" ∈ ["load"]
  ∧ example_config !! "load" ≫= phases
    = Some [mkPhase (Some "ramp") (Some "1m") 10;
            mkPhase (Some "hold") (Some "2m") 20]
  ∧ (0 < 2)%nat
  ∧ ∃ st',
      recordMetrics (initializeMetrics ["home"] ["load"] example_config)
        "home" "load" (Some 0%nat) (mkResponse 500 5) ∅
      = Returns st'
      ∧ level_updated ∅ st' "home_load" (mkResponse 500 5)
      ∧ level_updated ∅ st' "home_load_phase0" (mkResponse 500 5).
Proof.
  assert ("home" ∈ ["home"]) as H1 by (apply list_elem_of_singleton; reflexivity).
  assert ("load" ∈ ["load"]) as H2 by (apply list_elem_of_singleton; reflexivity).
  split; [exact H1|]. split; [exact H2|]. split; [reflexivity|].
  split; [lia|].
  exact (proj1 (recordMetrics_registered ["home"] ["load"] example_config
                  "home" "load" _ 0 (mkResponse 500 5) ∅
                  H1 H2 eq_refl ltac:(simpl; lia))).
Defined.

(** C9: recording for a key that has no scenario-level metric set is meant
    to be a silent no-op.  The guard [metrics[scenario]?.[api]] is however
    also satisfied by the object kept under the property [phases] of a
    registered scenario, which has no [count]: for the unregistered API name
    "phases" the call throws instead of returning. *)
Theorem recordMetrics_unregistered_phases_throws :
  let metrics := initializeMetrics ["home"] ["load"] example_config in
  (∀ slot, scenario_slot metrics "load" "phases" = Some slot →
           metric slot = None)
  ∧ recordMetrics metrics "phases" "load" None (mkResponse 200 5) ∅
    = Throws_TypeError.
Proof.
  split.
  - intros slot. vm_compute. by intros [= <-].
  - vm_compute. reflexivity.
Qed.

(** C10: the guards of [recordMetrics] are per granularity.  When the
    scenario-level metric set of [(api, scenario)] is registered and the
    non-null [phaseIndex] has no phase-level metric set, the call returns
    normally, the scenario-level update is applied in full, and nothing
    changes at the phase level of that API and scenario, nor in any metric
    outside the scenario-level set.  For a registered API and scenario this
    is the case of an index beyond the declared phases. *)
Theorem recordMetrics_phase_unregistered apis scenarios scenarioConfig api
    scenario phaseIndex res st :
  api ∈ apis → scenario ∈ scenarios →
  phase_metric (initializeMetrics apis scenarios scenarioConfig)
    scenario api phaseIndex = None →
  let metrics := initializeMetrics apis scenarios scenarioConfig in
  let skey := scenario_key api scenario in
  ∃ st',
    recordMetrics metrics api scenario (Some phaseIndex) res st = Returns st'
    ∧ level_updated st st' skey res
    ∧ (∀ j, level_unchanged st st' (phase_key api scenario j))
    ∧ (∀ n, n ∉ metric_names skey → samples st' n = samples st n)
    ∧ match scenarioConfig !! scenario ≫= phases with
      | Some ps => (length ps ≤ phaseIndex)%nat
      | None => True
      end.
Proof.
  intros Ha Hs Hp metrics skey. eexists. split.
  { by apply (recordMetrics_scenario_only apis scenarios scenarioConfig
                api scenario (Some phaseIndex)). }
  assert (match scenarioConfig !! scenario ≫= phases with
          | Some ps => (length ps ≤ phaseIndex)%nat
          | None => True
          end) as Hrange.
  { rewrite phase_metric_lookup, decide_True in Hp by done.
    destruct (scenarioConfig !! scenario ≫= phases) as [ps|]; [|done].
    case_decide; [|lia]. by rewrite decide_True in Hp. }
  split; [|split; [|split; [|exact Hrange]]].
  - apply contribution_level_updated. intros n _. apply samples_record_on.
  - intros j. apply (contribution_level_unchanged _ _ skey _ res).
    + intros H. by apply (scenario_key_ne_phase_key api scenario j).
    + intros n _. apply samples_record_on.
  - intros n Hn. rewrite samples_record_on, contribution_outside by done.
    by rewrite app_nil_r.
Qed.

Lemma recordMetrics_phase_unregistered_witness :
  "home" ∈ ["home"] ∧ "load" ∈ ["load"]
  ∧ phase_metric (initializeMetrics ["home"] ["load"] example_config)
      "load" "home" 7 = None
  ∧ ∃ st',
      recordMetrics (initializeMetrics ["home"] ["load"] example_config)
        "home" "load" (Some 7%nat) (mkResponse 503 12) ∅
      = Returns st'
      ∧ level_updated ∅ st' "home_load" (mkResponse 503 12)
      ∧ (∀ j, level_unchanged ∅ st' (phase_key "home" "load" j))
      ∧ (∀ n, n ∉ metric_names "home_load" → samples st' n = samples ∅ n)
      ∧ (2 ≤ 7)%nat.
Proof.
  assert ("home" ∈ ["home"]) as H1 by (apply list_elem_of_singleton; reflexivity).
  assert ("load" ∈ ["load"]) as H2 by (apply list_elem_of_singleton; reflexivity).
  split; [exact H1|]. split; [exact H2|]. split; [vm_compute; reflexivity|].
  exact (recordMetrics_phase_unregistered ["home"] ["load"] example_config
           "home" "load" 7 (mkResponse 503 12) ∅ H1 H2
           ltac:(vm_compute; reflexivity)).
Defined.

(** ** Aggregator *)

Section AggregatorResults.

Import Report.
Local Open Scope Q_scope.











End AggregatorResults.

(** * The rest of the framework *)

(** ** Facts about requests *)

Section RequestFacts.

Import Request.

Lemma append_inj_l a x y : a +:+ x = a +:+ y → x = y.
Proof.
  induction a as [|c a IH]; [done|].
  rewrite !append_cons. intros [= H]. by apply IH.
Qed.

Lemma phase_key_inj_index api scenario i j :
  phase_key api scenario i = phase_key api scenario j → i = j.
Proof.
  unfold phase_key. intros H.
  do 4 apply append_inj_l in H. by apply (inj pretty) in H.
Qed.

(** An index returned by the resolver is that of a declared phase. *)
Lemma getCurrentPhase_declared scenario cfg t0 now i :
  getCurrentPhase scenario cfg t0 now = Some i →
  ∃ ps, cfg !! scenario ≫= phases = Some ps ∧ (i < length ps)%nat.
Proof.
  unfold getCurrentPhase.
  destruct (cfg !! scenario) as [config|] eqn:Hc; [|done].
  destruct (phases config) as [ps|] eqn:Hps; [|done].
  destruct (Qlt_le_dec _ 0); [done|].
  intros (k & -> & Hk & _)%phase_loop_Some.
  exists ps. by split.
Qed.

(** What a returning call on a registry built by [initializeMetrics]
    appends to the samples of each metric. *)
Lemma recordMetrics_samples apis scenarios cfg api scenario phaseIndex res
    st st' :
  recordMetrics (initializeMetrics apis scenarios cfg) api scenario
    phaseIndex res st = Returns st' →
  ∃ l1 l2 : string → list Q,
    (∀ n, samples st' n = samples st n ++ l1 n ++ l2 n)
    ∧ (l1 = contribution (scenario_key api scenario) res
       ∨ l1 = (λ _, []) ∧ l2 = (λ _, []))
    ∧ (l2 = (λ _, [])
       ∨ ∃ i, phaseIndex = Some i
              ∧ l2 = contribution (phase_key api scenario i) res).
Proof.
  destruct (decide (scenario ∈ scenarios)) as [Hs|Hs];
    [destruct (decide (api ∈ apis)) as [Ha|Ha]|].
  - destruct phaseIndex as [i|].
    + destruct (phase_metric (initializeMetrics apis scenarios cfg)
                  scenario api i) as [m|] eqn:Hm.
      * rewrite phase_metric_lookup in Hm.
        rewrite decide_True in Hm by done.
        destruct (cfg !! scenario ≫= phases) as [ps|] eqn:Hps; [|done].
        destruct (decide (i < length ps)%nat) as [Hi|]; [|done].
        rewrite (recordMetrics_both _ _ _ _ _ ps) by done.
        intros [= <-].
        exists (contribution (scenario_key api scenario) res),
               (contribution (phase_key api scenario i) res).
        split; [|split; [by left|right; by exists i]].
        intros n. by rewrite samples_recorded_both, app_assoc.
      * rewrite recordMetrics_scenario_only by done. intros [= <-].
        exists (contribution (scenario_key api scenario) res), (λ _, []).
        split; [|split; by left].
        intros n. by rewrite samples_record_on, app_nil_r.
    + rewrite recordMetrics_scenario_only by done. intros [= <-].
      exists (contribution (scenario_key api scenario) res), (λ _, []).
      split; [|split; by left].
      intros n. by rewrite samples_record_on, app_nil_r.
  - destruct (decide (api = "phases")) as [->|Hp].
    + by rewrite recordMetrics_phases_throws.
    + rewrite recordMetrics_unregistered_noop by tauto. intros [= <-].
      exists (λ _, []), (λ _, []). split; [|split; [by right|by left]].
      intros n. by rewrite !app_nil_r.
  - rewrite recordMetrics_unregistered_noop by tauto. intros [= <-].
    exists (λ _, []), (λ _, []). split; [|split; [by right|by left]].
    intros n. by rewrite !app_nil_r.
Qed.

(** A request for a registered API and scenario, recorded with the phase
    that the resolver gives. *)
Lemma recordMetrics_resolved apis scenarios cfg api scenario t0 now res st :
  api ∈ apis → scenario ∈ scenarios →
  recordMetrics (initializeMetrics apis scenarios cfg) api scenario
    (getCurrentPhase scenario cfg t0 now) res st
  = Returns
      (match getCurrentPhase scenario cfg t0 now with
       | Some i =>
           record_on (newMetricSet (phase_key api scenario i)) res
             (record_on (newMetricSet (scenario_key api scenario)) res st)
       | None => record_on (newMetricSet (scenario_key api scenario)) res st
       end).
Proof.
  intros Ha Hs.
  destruct (getCurrentPhase scenario cfg t0 now) as [i|] eqn:Hr.
  - apply getCurrentPhase_declared in Hr as (ps & Hps & Hi).
    by apply (recordMetrics_both _ _ _ _ _ ps).
  - by apply recordMetrics_scenario_only.
Qed.


(** Lists built by one optional element per item. *)
Lemma bind_singleton_if {A B} (P : A → Prop) `{∀ x, Decision (P x)}
    (f : A → list B) (g : A → B) (l : list A) :
  (∀ x, x ∈ l → f x = if decide (P x) then [g x] else []) →
  l ≫= f = g <$> filter P l.
Proof.
  induction l as [|x l IH]; intros Hf; [done|].
  rewrite bind_cons, filter_cons, Hf by (apply elem_of_cons; auto).
  rewrite IH by (intros y Hy; apply Hf, elem_of_cons; auto).
  case_decide; by rewrite ?fmap_cons.
Qed.

Lemma bind_singleton {A B} (f : A → list B) (g : A → B) (l : list A) :
  (∀ x, x ∈ l → f x = [g x]) → l ≫= f = g <$> l.
Proof.
  induction l as [|x l IH]; intros Hf; [done|].
  rewrite bind_cons, Hf by (apply elem_of_cons; auto).
  rewrite IH by (intros y Hy; apply Hf, elem_of_cons; auto). done.
Qed.

Lemma sum_of_ones {A} (l : list A) :
  (foldr Qplus 0 ((λ _, 1) <$> l) == inject_Z (Z.of_nat (length l)))%Q.
Proof.
  induction l as [|x l IH]; [done|].
  rewrite fmap_cons, inject_Z_length_cons. cbn [foldr]. rewrite IH. ring.
Qed.

(** What a sequence of requests for a registered API and scenario appends
    to the samples of each metric. *)
Lemma requests_samples apis scenarios cfg api scenario t0 calls st :
  api ∈ apis → scenario ∈ scenarios →
  ∃ st',
    requests api scenario cfg (initializeMetrics apis scenarios cfg) t0
      calls st = Returns st'
    ∧ ∀ n,
        samples st' n
        = samples st n
          ++ (calls ≫= λ c,
                contribution (scenario_key api scenario) (recorded c.2) n
                ++ match getCurrentPhase scenario cfg t0 c.1 with
                   | Some i =>
                       contribution (phase_key api scenario i)
                         (recorded c.2) n
                   | None => []
                   end).
Proof.
  intros Ha Hs. revert st.
  induction calls as [|[now res] calls IH]; intros st.
  - exists st. split; [done|]. intros n. by rewrite app_nil_r.
  - cbn [requests]. unfold makeRequest.
    rewrite recordMetrics_resolved by done. cbn [bind fst].
    edestruct IH as (st' & -> & Hst'). exists st'. split; [done|].
    intros n. rewrite Hst', bind_cons, app_assoc. f_equal. cbn [fst snd].
    destruct (getCurrentPhase scenario cfg t0 now).
    + apply samples_recorded_both.
    + by rewrite samples_record_on, app_nil_r.
Qed.

Lemma filter_length_split {A} (P Q R : A → Prop) `{∀ x, Decision (P x)}
    `{∀ x, Decision (Q x)} `{∀ x, Decision (R x)} (l : list A) :
  (∀ x, P x ↔ Q x ∨ R x) → (∀ x, ¬ (Q x ∧ R x)) →
  length (filter P l) = Nat.add (length (filter Q l)) (length (filter R l)).
Proof.
  intros HP HQR. induction l as [|x l IH]; [done|].
  rewrite !filter_cons. specialize (HP x). specialize (HQR x).
  repeat case_decide; cbn [length]; try lia; exfalso; tauto.
Qed.

(** Responses with a status of 400 or above, split by status code. *)
Lemma filter_codes_split {A} (f : A → Z) (codes : list Z) (l : list A) :
  NoDup codes → (∀ c, c ∈ codes → 400 ≤ c) →
  length (filter (λ x, 400 ≤ f x) l)
  = Nat.add
      (sum_list ((λ code, length (filter (λ x, f x = code) l)) <$> codes))
      (length (filter (λ x, 400 ≤ f x ∧ f x ∉ codes) l)).
Proof.
  induction 1 as [|code codes Hcode Hnd IH]; intros Hge.
  - cbn [fmap list_fmap sum_list sum_list_with]. rewrite Nat.add_0_l.
    apply (f_equal length), list_filter_iff. intros x.
    rewrite elem_of_nil. tauto.
  - rewrite IH by (intros c Hc; apply Hge, elem_of_cons; auto).
    rewrite fmap_cons. cbn [sum_list sum_list_with].
    rewrite (filter_length_split (λ x, 400 ≤ f x ∧ f x ∉ codes)
               (λ x, f x = code)
               (λ x, 400 ≤ f x ∧ f x ∉ code :: codes)).
    + rewrite Nat.add_assoc. f_equal. apply Nat.add_comm.
    + intros x. rewrite not_elem_of_cons.
      assert (400 ≤ code) by (apply Hge, elem_of_cons; auto).
      destruct (decide (f x = code)) as [->|]; tauto.
    + intros x. rewrite not_elem_of_cons. tauto.
Qed.

Lemma Qsum_lengths {A} (n : A → nat) (l : list A) :
  (Report.Qsum ((λ x, inject_Z (Z.of_nat (n x))) <$> l)
   == inject_Z (Z.of_nat (sum_list (n <$> l))))%Q.
Proof.
  induction l as [|x l IH]; [done|].
  rewrite !fmap_cons, Qsum_cons, IH. cbn [sum_list sum_list_with].
  rewrite Nat2Z.inj_add, inject_Z_plus. reflexivity.
Qed.

Lemma statusCodes_tracked_NoDup : NoDup statusCodes_tracked.
Proof.
  unfold statusCodes_tracked.
  repeat (apply NoDup_cons_2; [rewrite ?elem_of_cons, elem_of_nil; lia|]).
  apply NoDup_nil_2.
Qed.

Lemma statusCodes_tracked_failing code :
  code ∈ statusCodes_tracked → 400 ≤ code.
Proof.
  unfold statusCodes_tracked. rewrite !elem_of_cons, elem_of_nil. lia.
Qed.

End RequestFacts.

(** ** Requests *)

Section RequestResults.

Import Request.



(** X2: after any sequence of requests for a registered API and scenario,
    the scenario-level request count has grown by the number of requests,
    the failure count by the number of responses with a status of 400 or
    above, and the duration trend holds the durations in the order of the
    requests.  The metrics of each phase have grown in the same way by the
    requests that the resolver placed in that phase, and by no other. *)
Theorem requests_totals apis scenarios scenarioConfig apiName scenarioName
    testStartTime calls st :
  apiName ∈ apis → scenarioName ∈ scenarios →
  let metrics := initializeMetrics apis scenarios scenarioConfig in
  let skey := scenario_key apiName scenarioName in
  ∃ st',
    requests apiName scenarioName scenarioConfig metrics testStartTime
      calls st = Returns st'
    ∧ (counter_value st' (count_name skey)
       == counter_value st (count_name skey)
          + inject_Z (Z.of_nat (length calls)))%Q
    ∧ samples st' (duration_name skey)
      = samples st (duration_name skey)
        ++ ((λ c, res_timings_duration c.2) <$> calls)
    ∧ (counter_value st' (failed_name skey)
       == counter_value st (failed_name skey)
          + inject_Z (Z.of_nat
              (length (filter (λ c, 400 ≤ res_status c.2) calls))))%Q
    ∧ ∀ i,
        let pkey := phase_key apiName scenarioName i in
        let hits :=
          filter (λ c, getCurrentPhase scenarioName scenarioConfig
                         testStartTime c.1 = Some i) calls in
        (counter_value st' (count_name pkey)
         == counter_value st (count_name pkey)
            + inject_Z (Z.of_nat (length hits)))%Q
        ∧ samples st' (duration_name pkey)
          = samples st (duration_name pkey)
            ++ ((λ c, res_timings_duration c.2) <$> hits)
        ∧ (counter_value st' (failed_name pkey)
           == counter_value st (failed_name pkey)
              + inject_Z (Z.of_nat
                  (length (filter (λ c, 400 ≤ res_status c.2) hits))))%Q.
Proof.
  intros Ha Hs metrics skey.
  destruct (requests_samples apis scenarios scenarioConfig apiName
              scenarioName testStartTime calls st Ha Hs) as (st' & Hr & Hst').
  exists st'. split; [done|].
  assert (∀ i, skey ≠ phase_key apiName scenarioName i) as Hne
    by (intros i; apply scenario_key_ne_phase_key).
  split; [|split; [|split]].
  - rewrite (counter_value_app st st' _ _ (Hst' _)).
    rewrite (bind_singleton _ (λ _, 1%Q)), sum_of_ones; [done|].
    intros [t r] _. cbn [fst snd].
    rewrite contribution_count, decide_True by done.
    destruct (getCurrentPhase _ _ _ _) as [i|]; [|done].
    rewrite contribution_count, decide_False by apply Hne. done.
  - rewrite Hst'. f_equal. apply bind_singleton.
    intros [t r] _. cbn [fst snd].
    rewrite contribution_duration, decide_True by done.
    destruct (getCurrentPhase _ _ _ _) as [i|]; [|done].
    rewrite contribution_duration, decide_False by apply Hne. done.
  - rewrite (counter_value_app st st' _ _ (Hst' _)).
    rewrite (bind_singleton_if (λ c, 400 ≤ res_status c.2) _ (λ _, 1%Q)),
      sum_of_ones; [done|].
    intros [t r] _. cbn [fst snd].
    rewrite contribution_failed.
    destruct (getCurrentPhase _ _ _ _) as [i|].
    + rewrite contribution_failed.
      rewrite (decide_False (P := skey = phase_key _ _ _ ∧ _))
        by (intros [H _]; by apply Hne in H).
      rewrite app_nil_r. apply decide_ext. cbn. tauto.
    + rewrite app_nil_r. apply decide_ext. cbn. tauto.
  - intros i pkey hits.
    assert (∀ j, pkey = phase_key apiName scenarioName j ↔ j = i) as Hpk.
    { intros j. split; [|by intros ->].
      intros H. symmetry. by apply phase_key_inj_index in H. }
    split; [|split].
    + rewrite (counter_value_app st st' _ _ (Hst' _)).
      rewrite (bind_singleton_if
                 (λ c, getCurrentPhase scenarioName scenarioConfig
                         testStartTime c.1 = Some i) _ (λ _, 1%Q)),
        sum_of_ones; [done|].
      intros [t r] _. cbn [fst snd].
      rewrite contribution_count, decide_False
        by (intros H; by apply (Hne i)).
      destruct (getCurrentPhase _ _ _ _) as [j|].
      * rewrite contribution_count. cbn [app].
        apply decide_ext. rewrite Hpk. split; [by intros ->|by intros [= ->]].
      * by rewrite decide_False.
    + rewrite Hst'. f_equal.
      apply (bind_singleton_if
               (λ c, getCurrentPhase scenarioName scenarioConfig
                       testStartTime c.1 = Some i)).
      intros [t r] _. cbn [fst snd].
      rewrite contribution_duration, decide_False
        by (intros H; by apply (Hne i)).
      destruct (getCurrentPhase _ _ _ _) as [j|].
      * rewrite contribution_duration. cbn [app].
        apply decide_ext. rewrite Hpk. split; [by intros ->|by intros [= ->]].
      * by rewrite decide_False.
    + rewrite (counter_value_app st st' _ _ (Hst' _)).
      unfold hits. rewrite list_filter_filter.
      rewrite (bind_singleton_if
                 (λ c, 400 ≤ res_status c.2
                       ∧ getCurrentPhase scenarioName scenarioConfig
                           testStartTime c.1 = Some i) _ (λ _, 1%Q)),
        sum_of_ones; [done|].
      intros [t r] _. cbn [fst snd].
      rewrite contribution_failed, decide_False
        by (intros [H _]; by apply (Hne i)).
      destruct (getCurrentPhase _ _ _ _) as [j|].
      * rewrite contribution_failed. cbn [app].
        apply decide_ext. rewrite Hpk. cbn.
        split; [intros [-> ?]; by split|intros [? [= ->]]; by split].
      * rewrite decide_False; [done|]. by intros [_ ?].
Qed.

Lemma requests_totals_witness :
  "home" ∈ ["home"] ∧ "load" ∈ ["load"]
  ∧ ∃ st',
      requests "home" "load" example_config
        (initializeMetrics ["home"] ["load"] example_config) 0
        [(30000, mkHttpResponse 200 "OK" "" 7);
         (90000, mkHttpResponse 500 "Internal Server Error" "" 9)] ∅
      = Returns st'
      ∧ samples st' "duration_home_load" = [7%Q; 9%Q]
      ∧ samples st' "duration_home_load_phase1" = [9%Q].
Proof.
  assert ("home" ∈ ["home"]) as H1 by (apply list_elem_of_singleton; reflexivity).
  assert ("load" ∈ ["load"]) as H2 by (apply list_elem_of_singleton; reflexivity).
  split; [exact H1|]. split; [exact H2|].
  destruct (requests_totals ["home"] ["load"] example_config "home" "load" 0
              [(30000, mkHttpResponse 200 "OK" "" 7);
               (90000, mkHttpResponse 500 "Internal Server Error" "" 9)] ∅
              H1 H2) as (st' & Heq & _ & Hd & _ & Hp).
  exists st'. split; [exact Heq|]. split; [exact Hd|].
  exact (proj1 (proj2 (Hp 1%nat))).
Defined.

(** X3: after any sequence of requests for a registered API and scenario,
    starting from an empty store, the counter of each tracked status code
    holds the number of responses with that status, and the failure counter
    is the sum of the eight status counters plus the number of responses
    whose status is 400 or above and is not a tracked code.  Such responses
    (a 429, say) count as failures and appear under no status code. *)
Theorem failures_split_by_status apis scenarios scenarioConfig apiName
    scenarioName testStartTime calls :
  apiName ∈ apis → scenarioName ∈ scenarios →
  let metrics := initializeMetrics apis scenarios scenarioConfig in
  let skey := scenario_key apiName scenarioName in
  ∃ st',
    requests apiName scenarioName scenarioConfig metrics testStartTime
      calls ∅ = Returns st'
    ∧ (∀ code, code ∈ statusCodes_tracked →
         (counter_value st' (status_name code skey)
          == inject_Z (Z.of_nat
               (length (filter (λ c, res_status c.2 = code) calls))))%Q)
    ∧ (counter_value st' (failed_name skey)
       == Report.Qsum ((λ code, counter_value st' (status_name code skey))
                       <$> statusCodes_tracked)
          + inject_Z (Z.of_nat
              (length (filter (λ c, 400 ≤ res_status c.2
                                    ∧ res_status c.2 ∉ statusCodes_tracked)
                         calls))))%Q.
Proof.
  intros Ha Hs metrics skey.
  destruct (requests_samples apis scenarios scenarioConfig apiName
              scenarioName testStartTime calls ∅ Ha Hs) as (st' & Hr & Hst').
  exists st'. split; [done|].
  assert (∀ i, skey ≠ phase_key apiName scenarioName i) as Hne
    by (intros i; apply scenario_key_ne_phase_key).
  assert (∀ code, code ∈ statusCodes_tracked →
            (counter_value st' (status_name code skey)
             == inject_Z (Z.of_nat
                  (length (filter (λ c, res_status c.2 = code) calls))))%Q)
    as Hcodes.
  { intros code Hcode.
    rewrite (counter_value_app ∅ st' _ _ (Hst' _)), counter_value_empty.
    rewrite (bind_singleton_if (λ c, res_status c.2 = code) _ (λ _, 1%Q)),
      sum_of_ones; [ring|].
    intros [t r] _. cbn [fst snd].
    pose proof (statusCodes_tracked_failing code Hcode).
    rewrite contribution_status by done.
    destruct (getCurrentPhase _ _ _ _) as [i|].
    - rewrite contribution_status by done.
      rewrite (decide_False (P := skey = phase_key _ _ _ ∧ _))
        by (intros [H' _]; by apply Hne in H').
      rewrite app_nil_r. apply decide_ext. cbn. split; [by intros (_ & _ & ->)|].
      intros <-. by repeat split.
    - rewrite app_nil_r. apply decide_ext. cbn. split; [by intros (_ & _ & ->)|].
      intros <-. by repeat split. }
  split; [done|].
  rewrite (counter_value_app ∅ st' _ _ (Hst' _)), counter_value_empty.
  rewrite (bind_singleton_if (λ c, 400 ≤ res_status c.2) _ (λ _, 1%Q)),
    sum_of_ones.
  - rewrite (Qsum_ext _ (λ code, inject_Z (Z.of_nat
               (length (filter (λ c : Z * HttpResponse, res_status c.2 = code)
                          calls))))) by done.
    rewrite Qsum_lengths, <- inject_Z_plus, <- Nat2Z.inj_add.
    rewrite (filter_codes_split (λ c : Z * HttpResponse, res_status c.2)
               statusCodes_tracked calls statusCodes_tracked_NoDup
               statusCodes_tracked_failing).
    ring.
  - intros [t r] _. cbn [fst snd].
    rewrite contribution_failed.
    destruct (getCurrentPhase _ _ _ _) as [i|].
    + rewrite contribution_failed.
      rewrite (decide_False (P := skey = phase_key _ _ _ ∧ _))
        by (intros [H _]; by apply Hne in H).
      rewrite app_nil_r. apply decide_ext. cbn. tauto.
    + rewrite app_nil_r. apply decide_ext. cbn. tauto.
Qed.

Lemma failures_split_by_status_witness :
  "home" ∈ ["home"] ∧ "load" ∈ ["load"]
  ∧ ∃ st',
      requests "home" "load" example_config
        (initializeMetrics ["home"] ["load"] example_config) 0
        [(30000, mkHttpResponse 429 "Too Many Requests" "" 7);
         (90000, mkHttpResponse 500 "Internal Server Error" "" 9)] ∅
      = Returns st'
      ∧ (counter_value st' "status_500_home_load" == 1)%Q.
Proof.
  assert ("home" ∈ ["home"]) as H1 by (apply list_elem_of_singleton; reflexivity).
  assert ("load" ∈ ["load"]) as H2 by (apply list_elem_of_singleton; reflexivity).
  split; [exact H1|]. split; [exact H2|].
  destruct (failures_split_by_status ["home"] ["load"] example_config "home"
              "load" 0
              [(30000, mkHttpResponse 429 "Too Many Requests" "" 7);
               (90000, mkHttpResponse 500 "Internal Server Error" "" 9)]
              H1 H2) as (st' & Heq & Hc & _).
  exists st'. split; [exact Heq|].
  apply (Hc 500). unfold statusCodes_tracked. rewrite !elem_of_cons. tauto.
Defined.

(** X4: a call of [recordMetrics] on a registry built by
    [initializeMetrics] that returns changes no metric other than those
    named after its own API and scenario and, for a non-null phase index,
    after that phase; and in every metric the samples recorded before are
    still there, in front of the new ones. *)
Theorem recordMetrics_footprint apis scenarios scenarioConfig api scenario
    phaseIndex res st st' :
  recordMetrics (initializeMetrics apis scenarios scenarioConfig) api
    scenario phaseIndex res st = Returns st' →
  (∀ n, n ∉ metric_names (scenario_key api scenario) →
        (∀ i, phaseIndex = Some i →
              n ∉ metric_names (phase_key api scenario i)) →
        samples st' n = samples st n)
  ∧ ∀ n, samples st n `prefix_of` samples st' n.
Proof.
  intros (l1 & l2 & Hst' & H1 & H2)%recordMetrics_samples. split.
  - intros n Hs Hp. rewrite Hst'.
    assert (l1 n = []) as ->.
    { destruct H1 as [->|[-> _]]; [|done]. by apply contribution_outside. }
    assert (l2 n = []) as ->.
    { destruct H2 as [->|(i & Hi & ->)]; [done|].
      by apply contribution_outside, Hp. }
    by rewrite !app_nil_r.
  - intros n. rewrite Hst'. by apply prefix_app_r.
Qed.

Lemma recordMetrics_footprint_witness :
  ∃ st',
    recordMetrics (initializeMetrics ["home"] ["load"] example_config)
      "home" "load" (Some 0%nat) (mkResponse 404 3) ∅ = Returns st'
    ∧ samples ∅ "count_home_load" `prefix_of` samples st' "count_home_load".
Proof.
  assert ("home" ∈ ["home"]) as H1 by (apply list_elem_of_singleton; reflexivity).
  assert ("load" ∈ ["load"]) as H2 by (apply list_elem_of_singleton; reflexivity).
  pose proof (recordMetrics_both ["home"] ["load"] example_config "home"
                "load" _ 0 (mkResponse 404 3) ∅ H1 H2 eq_refl
                ltac:(cbn [length]; lia)) as Heq.
  eexists. split; [exact Heq|].
  exact (proj2 (recordMetrics_footprint ["home"] ["load"] example_config
                  "home" "load" (Some 0%nat) (mkResponse 404 3) ∅ _ Heq)
           "count_home_load").
Defined.



(** X6: metric names do not tell the API from the scenario, nor a scenario
    from a phase.  The names are built by joining with an underscore, so a
    request recorded for the API "a_b" in scenario "c" is counted in the
    metrics of the API "a" in scenario "b_c", and a request recorded at the
    scenario level of a scenario named "s_phase0" is counted in the metrics
    of phase 0 of scenario "s". *)
Theorem metric_names_alias apis scenarios scenarioConfig res st :
  let metrics := initializeMetrics apis scenarios scenarioConfig in
  (∀ a b c,
     (a +:+ "_" +:+ b) ∈ apis → c ∈ scenarios →
     ∃ st',
       recordMetrics metrics (a +:+ "_" +:+ b) c None res st = Returns st'
       ∧ level_updated st st' (scenario_key a (b +:+ "_" +:+ c)) res)
  ∧ (∀ api s i,
       api ∈ apis → (s +:+ "_phase" +:+ pretty i) ∈ scenarios →
       ∃ st',
         recordMetrics metrics api (s +:+ "_phase" +:+ pretty i) None res st
         = Returns st'
         ∧ level_updated st st' (phase_key api s i) res).
Proof.
  intros metrics. split.
  - intros a b c Ha Hc. eexists. split.
    + apply (recordMetrics_scenario_only apis scenarios scenarioConfig
               _ _ None); [exact Ha|exact Hc|exact I].
    + replace (scenario_key a (b +:+ "_" +:+ c))
        with (scenario_key (a +:+ "_" +:+ b) c)
        by (unfold scenario_key; rewrite append_assoc; reflexivity).
      apply contribution_level_updated. intros n _. apply samples_record_on.
  - intros api s i Ha Hs. eexists. split.
    + apply (recordMetrics_scenario_only apis scenarios scenarioConfig
               _ _ None); [exact Ha|exact Hs|exact I].
    + change (phase_key api s i)
        with (scenario_key api (s +:+ "_phase" +:+ pretty i)).
      apply contribution_level_updated. intros n _. apply samples_record_on.
Qed.

Lemma metric_names_alias_witness :
  ∃ st',
    recordMetrics
      (initializeMetrics ["get" +:+ "_" +:+ "users"; "get"]
         ["load"; "users_load"] ∅)
      ("get" +:+ "_" +:+ "users") "load" None (mkResponse 200 5) ∅
    = Returns st'
    ∧ level_updated ∅ st' (scenario_key "get" ("users" +:+ "_" +:+ "load"))
        (mkResponse 200 5).
Proof.
  refine (proj1 (metric_names_alias ["get" +:+ "_" +:+ "users"; "get"]
                   ["load"; "users_load"] ∅ (mkResponse 200 5) ∅)
            "get" "users" "load" _ _).
  - apply elem_of_cons. left. reflexivity.
  - apply elem_of_cons. left. reflexivity.
Defined.

End RequestResults.

(** ** Facts about phase windows *)

Section WindowFacts.

Import Report Assembly.

(** Seconds from the scenario's start to the start of phase [i]. *)
Lemma cumulative_through_split ps i p :
  ps !! i = Some p →
  cumulative_through ps i
  = match i with
    | O => 0
    | S i' => cumulative_through ps i'
    end + parseDuration (Phases.duration p).
Proof.
  revert i. induction ps as [|q ps IH]; intros i; [done|].
  destruct i as [|i]; cbn [lookup list_lookup].
  - intros [= ->]. cbn [cumulative_through]. lia.
  - intros Hp. rewrite cumulative_through_step, (IH i Hp).
    destruct i as [|i]; cbn [cumulative_through]; lia.
Qed.

Lemma cumulative_through_nonneg ps i : 0 ≤ cumulative_through ps i.
Proof.
  revert i. induction ps as [|q ps IH]; intros i; cbn [cumulative_through];
    [lia|].
  pose proof (parseDuration_nonneg (Phases.duration q)).
  destruct i as [|i]; [lia|]. specialize (IH i). lia.
Qed.

Lemma cumulative_through_mono ps j k :
  (j ≤ k)%nat → cumulative_through ps j ≤ cumulative_through ps k.
Proof.
  revert j k. induction ps as [|q ps IH]; intros j k Hjk; [done|].
  cbn [cumulative_through].
  destruct j as [|j], k as [|k]; try lia.
  - pose proof (cumulative_through_nonneg ps k). lia.
  - specialize (IH j k). lia.
Qed.

(** The section of the phase at position [k] of the loop. *)
Lemma phase_sections_lookup data scenario SLA apis t0 ps i0 c0 k sec :
  phase_sections data scenario SLA apis t0 ps i0 c0 !! k = Some sec →
  ∃ p, ps !! k = Some p
       ∧ heading sec = phase_name p
       ∧ phaseEnd sec = t0 + (c0 + cumulative_through ps k) * 1000
       ∧ phaseStart sec
         = phaseEnd sec - parseDuration (Phases.duration p) * 1000
       ∧ phaseRows sec
         = let rows := buildPhaseTable data scenario (i0 + k) SLA apis in
           if existsb (λ r, if Qlt_le_dec 0 (total r) then true else false)
                rows
           then Some rows else None.
Proof.
  revert i0 c0 k. induction ps as [|q ps IH]; intros i0 c0 k; [done|].
  cbn [phase_sections]. destruct k as [|k]; cbn [lookup list_lookup].
  - intros [= <-]. exists q. cbn. rewrite Nat.add_0_r.
    repeat split; lia.
  - intros (p & Hp & Hh & He & Hs & Hr)%IH. exists p.
    rewrite cumulative_through_step.
    replace (i0 + S k)%nat with (S i0 + k)%nat by lia.
    repeat split; try done. lia.
Qed.

Lemma phase_sections_length data scenario SLA apis t0 ps i0 c0 :
  length (phase_sections data scenario SLA apis t0 ps i0 c0) = length ps.
Proof.
  revert i0 c0. induction ps as [|q ps IH]; intros i0 c0; [done|].
  cbn [phase_sections length]. by rewrite IH.
Qed.

(** The resolver's comparisons, in milliseconds. *)
Lemma scenarioElapsed_lt config t0 now c :
  (scenarioElapsed config t0 now < inject_Z c)%Q
  ↔ now
    < t0 + (parseDuration (Some (or_string (startTime config) "0s")) + c)
           * 1000.
Proof.
  unfold scenarioElapsed. cbv zeta.
  set (off := parseDuration _).
  rewrite Zlt_Qlt. unfold Z.sub.
  rewrite !inject_Z_plus, inject_Z_mult, inject_Z_plus, inject_Z_opp.
  change (inject_Z 1000) with 1000%Q.
  set (a := inject_Z now). set (b := inject_Z t0).
  set (o := inject_Z off). set (x := inject_Z c).
  assert (((a + - b) / 1000 == (a + - b) * (1 # 1000)))%Q as -> by reflexivity.
  split; intros; lra.
Qed.

Lemma scenarioElapsed_ge config t0 now c :
  (inject_Z c <= scenarioElapsed config t0 now)%Q
  ↔ t0 + (parseDuration (Some (or_string (startTime config) "0s")) + c)
         * 1000
    ≤ now.
Proof.
  rewrite Z.le_ngt, <- scenarioElapsed_lt. split.
  - intros H H'. lra.
  - intros H. destruct (Qlt_le_dec (scenarioElapsed config t0 now)
                          (inject_Z c)); [tauto|done].
Qed.

(** The resolver gives phase [i] exactly between the end of the phases
    before it and its own end. *)
Lemma getCurrentPhase_window scenario cfg config ps t0 now i p :
  cfg !! scenario = Some config → phases config = Some ps →
  ps !! i = Some p →
  let offset := parseDuration (Some (or_string (startTime config) "0s")) in
  getCurrentPhase scenario cfg t0 now = Some i ↔
  t0 + (offset + cumulative_through ps i
        - parseDuration (Phases.duration p)) * 1000 ≤ now
  ∧ now < t0 + (offset + cumulative_through ps i) * 1000.
Proof.
  intros Hc Hps Hp offset. unfold getCurrentPhase. rewrite Hc, Hps.
  pose proof (cumulative_through_split ps i p Hp) as Hsplit.
  pose proof (lookup_lt_Some _ _ _ Hp) as Hi.
  destruct (Qlt_le_dec (scenarioElapsed config t0 now) 0) as [Hneg|Hpos].
  - split; [done|]. intros [Hge _].
    change 0%Q with (inject_Z 0) in Hneg.
    apply scenarioElapsed_lt in Hneg. fold offset in Hneg.
    destruct i as [|i]; [lia|].
    pose proof (cumulative_through_nonneg ps i). lia.
  - change 0%Q with (inject_Z 0) in Hpos.
    apply scenarioElapsed_ge in Hpos. fold offset in Hpos.
    rewrite phase_loop_first, scenarioElapsed_lt. fold offset.
    split.
    + intros (_ & Hlt & Hfirst). split; [|done].
      destruct i as [|i]; [lia|].
      assert (¬ (scenarioElapsed config t0 now
                 < inject_Z (cumulative_through ps i))%Q) as Hn
        by (apply Hfirst; lia).
      rewrite scenarioElapsed_lt in Hn. fold offset in Hn. lia.
    + intros [Hge Hlt]. split; [done|]. split; [done|].
      intros j Hj. rewrite scenarioElapsed_lt. fold offset.
      destruct i as [|i]; [lia|].
      pose proof (cumulative_through_mono ps j i ltac:(lia)). lia.
Qed.

(** What a returning call of the loop body has built. *)
Lemma scenario_section_inv data SLA apis cfg t0 scenario s :
  scenario_section data SLA apis cfg t0 scenario = Returns s →
  ∃ config,
    cfg !! scenario = Some config
    ∧ scenarioName s = or_string (name config) scenario
    ∧ overallRows s = buildScenarioTable data scenario SLA apis
    ∧ breakdown s
      = (λ ps, phase_sections data scenario SLA apis t0 ps 0
                 (parseDuration
                    (Some (or_string (Phases.startTime config) "0s"))))
        <$> phases config.
Proof.
  unfold scenario_section.
  destruct (cfg !! scenario) as [config|]; [|done].
  intros [= <-]. by exists config.
Qed.

End WindowFacts.

(** ** More facts about the duration parser *)

Section DecimalFacts.












End DecimalFacts.

(** ** Phase windows *)

Section WindowResults.

Import Report Assembly.

(** X7: the time window that the report prints for a phase is the window
    in which the resolver gives that phase.  With the report's start time
    as the test start time, [getCurrentPhase] returns the index [i] at the
    time [now] exactly when [now] is at or after the [phaseStart] and
    before the [phaseEnd] of the i-th phase section. *)
Theorem phase_window_matches_resolver data SLA apis scenarioConfig
    testStartTime scenario s secs i sec now :
  scenario_section data SLA apis scenarioConfig testStartTime scenario
  = Returns s →
  breakdown s = Some secs → secs !! i = Some sec →
  getCurrentPhase scenario scenarioConfig testStartTime now = Some i
  ↔ phaseStart sec ≤ now < phaseEnd sec.
Proof.
  intros (config & Hc & _ & _ & Hb)%scenario_section_inv. rewrite Hb.
  destruct (phases config) as [ps|] eqn:Hps; [|done].
  intros Hsecs. apply (inj Some) in Hsecs. subst secs.
  intros (p & Hp & _ & He & Hs & _)%phase_sections_lookup.
  rewrite (getCurrentPhase_window scenario scenarioConfig config ps
             testStartTime now i p Hc Hps Hp).
  cbv zeta. rewrite Hs, He. split; intros [? ?]; split; lia.
Qed.

Lemma phase_window_matches_resolver_witness :
  ∃ s secs sec,
    scenario_section ∅ None [] example_config 1000 "load" = Returns s
    ∧ breakdown s = Some secs ∧ secs !! 1%nat = Some sec
    ∧ phaseStart sec = 61000 ∧ phaseEnd sec = 181000
    ∧ (getCurrentPhase "load" example_config 1000 61000 = Some 1%nat
       ↔ phaseStart sec ≤ 61000 < phaseEnd sec).
Proof.
  eexists _, _, _. split; [reflexivity|]. split; [reflexivity|].
  split; [reflexivity|]. split; [reflexivity|]. split; [reflexivity|].
  exact (phase_window_matches_resolver ∅ None [] example_config 1000 "load"
           _ _ 1 _ 61000 eq_refl eq_refl eq_refl).
Defined.

(** X8: the phase windows of a scenario's breakdown tile the scenario's
    run.  There is one section per declared phase, in order; the first
    window starts at the report's start time plus the scenario's parsed
    [startTime]; each window has the length of its phase's parsed duration
    and starts where the one before ends; the last one ends after the sum
    of all phase durations. *)
Theorem phase_windows_contiguous data SLA apis scenarioConfig startTime
    scenario config ps :
  scenarioConfig !! scenario = Some config → phases config = Some ps →
  let offset :=
    parseDuration (Some (or_string (Phases.startTime config) "0s")) in
  ∃ s secs,
    scenario_section data SLA apis scenarioConfig startTime scenario
    = Returns s
    ∧ breakdown s = Some secs
    ∧ length secs = length ps
    ∧ (∀ sec, secs !! 0%nat = Some sec →
              phaseStart sec = startTime + offset * 1000)
    ∧ (∀ k sec p, secs !! k = Some sec → ps !! k = Some p →
                  heading sec = phase_name p
                  ∧ phaseEnd sec
                    = phaseStart sec
                      + parseDuration (Phases.duration p) * 1000)
    ∧ (∀ k a b, secs !! k = Some a → secs !! S k = Some b →
                phaseStart b = phaseEnd a)
    ∧ (∀ sec, last secs = Some sec →
              phaseEnd sec
              = startTime + (offset + total_duration ps) * 1000).
Proof.
  intros Hc Hps offset. unfold scenario_section. rewrite Hc, Hps.
  eexists _, _. split; [reflexivity|]. unfold breakdown.
  split; [reflexivity|]. fold offset.
  split; [apply phase_sections_length|].
  split; [|split; [|split]].
  - intros sec (p & Hp & _ & He & Hs & _)%phase_sections_lookup.
    rewrite Hs, He, (cumulative_through_split ps 0 p Hp). lia.
  - intros k sec p (p' & Hp' & Hh & He & Hs & _)%phase_sections_lookup Hp.
    assert (p' = p) as -> by congruence. split; [done|]. lia.
  - intros k a b (p & Hp & _ & Hea & _)%phase_sections_lookup
      (q & Hq & _ & Heb & Hsb & _)%phase_sections_lookup.
    rewrite Hsb, Heb, Hea, (cumulative_through_split ps (S k) q Hq). lia.
  - intros sec. rewrite last_lookup, phase_sections_length.
    intros (p & Hp & _ & He & _)%phase_sections_lookup.
    rewrite He. do 3 f_equal.
    replace (Nat.pred (length ps)) with (length ps - 1)%nat by lia.
    apply cumulative_through_last. intros ->. done.
Qed.

Lemma phase_windows_contiguous_witness :
  ∃ s secs,
    scenario_section ∅ None [] example_config 1000 "load" = Returns s
    ∧ breakdown s = Some secs
    ∧ length secs = 2%nat
    ∧ ∀ k a b, secs !! k = Some a → secs !! S k = Some b →
               phaseStart b = phaseEnd a.
Proof.
  destruct (phase_windows_contiguous ∅ None [] example_config 1000 "load"
              _ _ eq_refl eq_refl)
    as (s & secs & Hs & Hb & Hl & _ & _ & Hc & _).
  exists s, secs. split; [exact Hs|]. split; [exact Hb|].
  split; [exact Hl|exact Hc].
Defined.

(** X9: a phase whose duration string has no [<integer><unit>] token, or
    parses to zero for another reason, is never the current phase: the
    resolver skips it at every time, so nothing is recorded for it. *)
Theorem getCurrentPhase_skips_empty_phase scenarioName scenarioConfig config
    ps i p testStartTime now :
  scenarioConfig !! scenarioName = Some config → phases config = Some ps →
  ps !! i = Some p → parseDuration (Phases.duration p) = 0 →
  getCurrentPhase scenarioName scenarioConfig testStartTime now ≠ Some i.
Proof.
  intros Hc Hps Hp Hzero.
  rewrite (getCurrentPhase_window scenarioName scenarioConfig config ps
             testStartTime now i p Hc Hps Hp).
  cbv zeta. rewrite Hzero. lia.
Qed.

Lemma getCurrentPhase_skips_empty_phase_witness :
  parseDuration (Some "500") = 0
  ∧ getCurrentPhase "burst"
      {[ "burst" :=
           mkScenarioConfig None None
             (Some [mkPhase (Some "spike") (Some "500") 50;
                    mkPhase (Some "hold") (Some "10s") 50])
             None None ]} 0 0
    ≠ Some 0%nat.
Proof.
  split; [reflexivity|].
  apply (getCurrentPhase_skips_empty_phase "burst" _
           (mkScenarioConfig None None
              (Some [mkPhase (Some "spike") (Some "500") 50;
                     mkPhase (Some "hold") (Some "10s") 50])
              None None)
           [mkPhase (Some "spike") (Some "500") 50;
            mkPhase (Some "hold") (Some "10s") 50]
           0 (mkPhase (Some "spike") (Some "500") 50));
    reflexivity.
Defined.

End WindowResults.

(** ** Duration strings *)

Section DecimalResults.




End DecimalResults.

(** ** More facts about the aggregator *)

Section TableFacts.

Import Report Assembly.
Local Open Scope Q_scope.

Lemma truthy_comp x y : x == y → truthy x = truthy y.
Proof.
  intros H. destruct (truthy x) eqn:Ex, (truthy y) eqn:Ey; try done.
  - apply truthy_true in Ex. apply truthy_false in Ey. destruct Ex. lra.
  - apply truthy_false in Ex. apply truthy_true in Ey. destruct Ey. lra.
Qed.

(** The row is a function of its numbers up to equality of rationals. *)
Lemma summaryRow_comp SLA a mn mx av q90 q95 q99 tot fl
    mn' mx' av' q90' q95' q99' tot' fl' :
  mn == mn' → mx == mx' → av == av' → q90 == q90' → q95 == q95' →
  q99 == q99' → tot == tot' → fl == fl' →
  same_row (summaryRow SLA a mn mx av q90 q95 q99 tot fl)
    (summaryRow SLA a mn' mx' av' q90' q95' q99' tot' fl').
Proof.
  intros Hmn Hmx Hav H90 H95 H99 Htot Hfl.
  unfold same_row, summaryRow.
  cbn [api sla min max avg p90 p95 p99 total passed failed errorPct status].
  split; [done|]. split; [done|].
  do 6 (split; [by apply toFixed2_comp|]).
  split; [done|]. split; [by rewrite Htot, Hfl|]. split; [done|]. split.
  - rewrite (truthy_comp tot tot' Htot). destruct (truthy tot'); [|done].
    apply toFixed2_comp. by rewrite Htot, Hfl.
  - destruct (SLA ≫= (.!! a)) as [e|]; [|done]. cbn [mbind option_bind].
    destruct (Qlt_le_dec 0 tot), (Qlt_le_dec 0 tot'); try lra; [|done].
    destruct (SLA.p90 e) as [t|]; [|done].
    destruct (Qlt_le_dec t q90), (Qlt_le_dec t q90'); try lra; done.
Qed.

Lemma omap_singleton {A B} (f : A → option B) (x : A) :
  omap f [x] = match f x with Some y => [y] | None => [] end.
Proof. reflexivity. Qed.

(** With one scenario the overall row is the scenario's own row. *)
Lemma overall_row_single data SLA scenario a :
  same_row (overall_row data SLA [scenario] a)
    (direct_row data SLA a (scenario_key a scenario)).
Proof.
  unfold overall_row, direct_row. cbn [foldl]. unfold aggregate_step.
  cbn [acc_total acc_failed allDurations].
  pose proof (add_if_truthy 0
                (metric_count data (count_name (scenario_key a scenario))))
    as Ht.
  pose proof (add_if_truthy 0
                (metric_count data (failed_name (scenario_key a scenario))))
    as Hf.
  rewrite Qplus_0_l in Ht, Hf.
  destruct (metric_values data (duration_name (scenario_key a scenario)))
    as [dv|].
  - cbn [app]. rewrite !omap_singleton.
    assert (∀ field, mean_of field [dv] == or_zero (dv !! field)) as Hmean.
    { intros field. unfold mean_of. cbn [foldl length]. field. }
    apply summaryRow_comp; try done.
    + destruct (dv !! "min") as [m|]; [|done].
      cbn [min_or_zero foldl]. by rewrite or_zero_Some.
    + destruct (dv !! "max") as [m|]; [|done].
      cbn [max_or_zero foldl]. by rewrite or_zero_Some.
  - cbn [app]. by apply summaryRow_comp.
Qed.

(** A key without any metric in the summary gives the empty row. *)
Lemma direct_row_absent data SLA a key :
  data !! count_name key = None → data !! failed_name key = None →
  data !! duration_name key = None →
  direct_row data SLA a key
  = mkSummaryRow a ((SLA ≫= (.!! a)) ≫= SLA.p90)
      "0.00" "0.00" "0.00" "0.00" "0.00" "0.00" 0 0 0 "0.00" NA.
Proof.
  intros Hc Hf Hd. unfold direct_row, metric_count, metric_values.
  rewrite Hc, Hf, Hd. cbn [mbind option_bind or_zero].
  unfold summaryRow. f_equal.
  destruct (SLA ≫= (.!! a)); reflexivity.
Qed.

Lemma sublist_bind {A B} (f g : A → list B) (l : list A) :
  (∀ x, f x `sublist_of` g x) → (l ≫= f) `sublist_of` (l ≫= g).
Proof.
  intros H. induction l as [|x l IH]; [done|].
  rewrite !bind_cons. by apply sublist_app.
Qed.

End TableFacts.

(** ** Registry *)

Section RegistryResults.

(** X12: [initializeMetrics] registers exactly what was listed.  The
    registry has a scenario-level metric set for a scenario and an API
    exactly when both are listed, and a phase-level one for an index
    exactly when, besides, the scenario's configuration declares more
    phases than the index.  Each set carries the metrics named after its
    key, with one status counter per tracked code and no other. *)
Theorem initializeMetrics_registry apis scenarios scenarioConfig :
  let metrics := initializeMetrics apis scenarios scenarioConfig in
  (∀ scenario api m,
     scenario_slot metrics scenario api ≫= metric = Some m
     ↔ scenario ∈ scenarios ∧ api ∈ apis
       ∧ m = newMetricSet (scenario_key api scenario))
  ∧ (∀ scenario api i m,
       phase_metric metrics scenario api i = Some m
       ↔ scenario ∈ scenarios ∧ api ∈ apis
         ∧ m = newMetricSet (phase_key api scenario i)
         ∧ ∃ ps, scenarioConfig !! scenario ≫= phases = Some ps
                 ∧ (i < length ps)%nat)
  ∧ (∀ key code name,
       statusCodes (newMetricSet key) !! code = Some name
       ↔ code ∈ statusCodes_tracked ∧ name = status_name code key).
Proof.
  intros metrics. split; [|split].
  - intros scenario api m.
    destruct (decide (scenario ∈ scenarios)) as [Hs|Hs];
      [destruct (decide (api ∈ apis)) as [Ha|Ha]|].
    + destruct (scenario_slot_registered apis scenarios scenarioConfig
                  scenario api Hs Ha) as (slot & Hslot & Hm).
      unfold metrics. rewrite Hslot. cbn [mbind option_bind]. rewrite Hm.
      split; [intros [= <-]; done|by intros (_ & _ & ->)].
    + split; [|tauto]. unfold metrics.
      destruct (decide (api = "phases")) as [->|Hp].
      * destruct (scenario_slot_phases apis scenarios scenarioConfig
                    scenario Hs Ha) as (slot & Hslot & Hm).
        rewrite Hslot. cbn [mbind option_bind]. by rewrite Hm.
      * by rewrite scenario_slot_unknown by tauto.
    + split; [|tauto]. unfold metrics.
      by rewrite scenario_slot_unknown by tauto.
  - intros scenario api i m. unfold metrics. rewrite phase_metric_lookup.
    destruct (decide (scenario ∈ scenarios)); [|split; [done|tauto]].
    destruct (scenarioConfig !! scenario ≫= phases) as [ps|].
    + destruct (decide (i < length ps)%nat).
      * destruct (decide (api ∈ apis)); [|split; [done|tauto]].
        split; [intros [= <-]; eauto 10|by intros (_ & _ & -> & _)].
      * split; [done|]. intros (_ & _ & _ & ps' & [= <-] & ?). lia.
    + split; [done|]. by intros (_ & _ & _ & ps' & ? & _).
  - intros key code name. rewrite statusCodes_lookup.
    case_decide; [|split; [done|tauto]].
    split; [intros [= <-]; done|by intros [_ ->]].
Qed.

End RegistryResults.

(** ** Tables *)

Section TableResults.

Import Report Assembly.
Local Open Scope Q_scope.

(** X13: an API for which the summary holds none of the three metrics of a
    scenario (or of a phase) still gets its row: all six statistics are
    "0.00", total, passed and failed are 0, the error percentage is
    "0.00" and the status is N/A, whatever the SLA says. *)
Theorem table_row_without_metrics data SLA apis scenario k a :
  apis !! k = Some a →
  let empty_row :=
    mkSummaryRow a ((SLA ≫= (.!! a)) ≫= SLA.p90)
      "0.00" "0.00" "0.00" "0.00" "0.00" "0.00" 0 0 0 "0.00" NA in
  (data !! count_name (scenario_key a scenario) = None →
   data !! failed_name (scenario_key a scenario) = None →
   data !! duration_name (scenario_key a scenario) = None →
   buildScenarioTable data scenario SLA apis !! k = Some empty_row)
  ∧ (∀ phaseIndex,
       data !! count_name (phase_key a scenario phaseIndex) = None →
       data !! failed_name (phase_key a scenario phaseIndex) = None →
       data !! duration_name (phase_key a scenario phaseIndex) = None →
       buildPhaseTable data scenario phaseIndex SLA apis !! k
       = Some empty_row).
Proof.
  intros Hk empty_row. split.
  - intros Hc Hf Hd.
    rewrite buildScenarioTable_rows, list_lookup_fmap, Hk.
    cbn [fmap option_fmap option_map]. f_equal.
    by apply direct_row_absent.
  - intros phaseIndex Hc Hf Hd.
    rewrite buildPhaseTable_rows, list_lookup_fmap, Hk.
    cbn [fmap option_fmap option_map]. f_equal.
    by apply direct_row_absent.
Qed.

Lemma table_row_without_metrics_witness :
  ["home"; "cart"] !! 1%nat = Some "cart"
  ∧ buildScenarioTable Examples.data "load" Examples.sla ["home"; "cart"]
    !! 1%nat
    = Some (mkSummaryRow "cart" None "0.00" "0.00" "0.00" "0.00" "0.00"
              "0.00" 0 0 0 "0.00" NA).
Proof.
  split; [reflexivity|].
  exact (proj1 (table_row_without_metrics Examples.data Examples.sla
                  ["home"; "cart"] "load" 1 "cart" eq_refl)
           eq_refl eq_refl eq_refl).
Defined.

(** X14: with a single scenario the overall table shows the same as that
    scenario's own table: row by row the API, the SLA cell, the six
    statistics, the error percentage and the status are equal, and so are
    the numbers total, passed and failed. *)
Theorem overall_table_single_scenario data SLA apis scenario :
  Forall2 same_row
    (buildOverallAggregateTable data SLA apis [scenario])
    (buildScenarioTable data scenario SLA apis).
Proof.
  rewrite buildOverallAggregateTable_rows, buildScenarioTable_rows.
  apply Forall2_fmap, Forall_Forall2_diag, Forall_forall.
  intros a _. apply overall_row_single.
Qed.

(** X15: the error distribution is complete and ordered.  Every listed API
    and tracked status code whose scenario-level counters sum to more than
    zero has a row; the rows follow the order of the APIs and, within an
    API, of the status codes, with at most one row per pair; and there is
    no row at all exactly when no such sum is positive. *)
Theorem error_distribution_complete data apis scenarios :
  let rows := buildApiErrorCorrelation data apis scenarios in
  (∀ a code,
     a ∈ apis → code ∈ statusCodes_tracked →
     0 < status_total data a code scenarios →
     ∃ row, row ∈ rows ∧ ErrorRow.api row = a ∧ ErrorRow.status row = code)
  ∧ ((λ r, (ErrorRow.api r, ErrorRow.status r)) <$> rows)
      `sublist_of` (a ← apis; code ← statusCodes_tracked; [(a, code)])
  ∧ (rows = [] ↔
     ∀ a code, a ∈ apis → code ∈ statusCodes_tracked →
               ¬ 0 < status_total data a code scenarios).
Proof.
  intros rows.
  assert (∀ a code,
            a ∈ apis → code ∈ statusCodes_tracked →
            0 < status_total data a code scenarios →
            ∃ row, row ∈ rows ∧ ErrorRow.api row = a
                   ∧ ErrorRow.status row = code) as Hcomplete.
  { intros a code Ha Hcode Hpos.
    eexists (ErrorRow.mk a code (error_count data a code scenarios) _).
    split; [|done]. unfold rows, buildApiErrorCorrelation.
    apply list_elem_of_fmap.
    exists (a, code, error_count data a code scenarios). split; [done|].
    apply elem_of_error_rows. cbn [fst snd].
    repeat split; try done. by rewrite error_count_total. }
  split; [exact Hcomplete|]. split.
  - assert (((λ r, (ErrorRow.api r, ErrorRow.status r)) <$> rows)
            = (λ r : string * Z * Q, (r.1.1, r.1.2))
              <$> error_rows data apis scenarios) as ->.
    { unfold rows, buildApiErrorCorrelation.
      by rewrite <- list_fmap_compose. }
    rewrite error_rows_flat, (fmap_of_bind _ _ apis).
    apply sublist_bind. intros a.
    rewrite (fmap_of_bind _ _ statusCodes_tracked).
    apply sublist_bind. intros code. unfold error_cell. cbv zeta.
    destruct (Qlt_le_dec 0 _); [done|]. apply sublist_nil_l.
  - split.
    + intros Hnil a code Ha Hcode Hpos.
      destruct (Hcomplete a code Ha Hcode Hpos) as (row & Hrow & _).
      rewrite Hnil in Hrow. by apply elem_of_nil in Hrow.
    + intros Hnone. unfold rows, buildApiErrorCorrelation.
      assert (error_rows data apis scenarios = []) as ->; [|done].
      apply elem_of_nil_inv.
      intros r (Ha & Hcode & Hr & Hpos)%elem_of_error_rows.
      apply (Hnone r.1.1 r.1.2 Ha Hcode).
      by rewrite <- error_count_total, <- Hr.
Qed.

End TableResults.

(** ** Facts about console tables *)

Section ConsoleFacts.

Import Console.
Local Open Scope nat_scope.

Lemma repeat_length s n : String.length (repeat s n) = n * String.length s.
Proof.
  induction n as [|n IH]; [done|].
  cbn [repeat]. rewrite append_length, IH. lia.
Qed.

Lemma padEnd_length s w :
  String.length s ≤ w → String.length (padEnd s w) = w.
Proof.
  intros H. unfold padEnd. rewrite append_length, repeat_length.
  change (String.length " ") with 1. lia.
Qed.

(** The length of a joined list depends on the lengths of its elements
    only. *)
Lemma concat_length_ext sep sep' l l' :
  String.length sep = String.length sep' →
  Forall2 (λ a b, String.length a = String.length b) l l' →
  String.length (String.concat sep l)
  = String.length (String.concat sep' l').
Proof.
  intros Hsep. induction 1 as [|a b l l' Hab Hl IH]; [done|].
  destruct Hl as [|a' b' l l' Hab' Hl]; [done|].
  change (String.length (a +:+ sep +:+ String.concat sep (a' :: l))
          = String.length (b +:+ sep' +:+ String.concat sep' (b' :: l'))).
  rewrite !append_length, Hab, Hsep. by rewrite IH.
Qed.

Lemma foldl_max_ge a l :
  a ≤ foldl Nat.max a l ∧ ∀ x, x ∈ l → x ≤ foldl Nat.max a l.
Proof.
  revert a. induction l as [|y l IH]; intros a; cbn [foldl].
  - split; [done|]. by intros x ?%elem_of_nil.
  - destruct (IH (Nat.max a y)) as [H1 H2]. split; [lia|].
    intros x [->|Hx]%elem_of_cons; [lia|by apply H2].
Qed.

Lemma colWidths_fmap keys data :
  colWidths keys data
  = (λ key, foldl Nat.max (String.length key)
              ((λ row, String.length (cell row key)) <$> data))
    <$> keys.
Proof. reflexivity. Qed.

(** A line whose texts fit their columns is as long as the separator. *)
Lemma table_line_length keys data text :
  (∀ key, key ∈ keys →
     String.length (text key)
     ≤ foldl Nat.max (String.length key)
         ((λ row, String.length (cell row key)) <$> data)) →
  String.length (table_line keys (colWidths keys data) text)
  = String.length (separator (colWidths keys data)).
Proof.
  intros Hfit. unfold table_line, separator.
  rewrite !append_length.
  change (String.length "|") with 1. change (String.length "+") with 1.
  do 2 f_equal. apply concat_length_ext; [done|].
  rewrite colWidths_fmap, zip_with_fmap_r, zip_with_diag.
  rewrite <- list_fmap_compose.
  apply Forall2_fmap, Forall_Forall2_diag, Forall_forall.
  intros key Hkey. cbn [compose].
  rewrite !append_length, padEnd_length by by apply Hfit.
  rewrite repeat_length.
  change (String.length " ") with 1. change (String.length "-") with 1.
  lia.
Qed.

End ConsoleFacts.

(** ** Facts about the execution summary *)

Section SummaryFacts.

Import Report Assembly.
Local Open Scope Q_scope.

Lemma Math_round_integer k : Math_round (inject_Z k) = k.
Proof.
  unfold Math_round, Qfloor, Qplus, inject_Z. cbn [Qnum Qden].
  change (Z.pos (1 * 2)) with 2%Z. rewrite Z.mul_1_r.
  symmetry. apply (Z.div_unique _ _ _ 1); lia.
Qed.

Lemma Math_round_comp x y : x == y → Math_round x = Math_round y.
Proof. unfold Math_round. by intros ->. Qed.

Lemma Math_round_mono x y : x <= y → (Math_round x ≤ Math_round y)%Z.
Proof.
  intros H. unfold Math_round. apply Qfloor_resp_le. lra.
Qed.

Lemma time_clip_le x n : x <= inject_Z n → (time_clip x ≤ n)%Z.
Proof.
  intros H. unfold time_clip. destruct (Qlt_le_dec x 0).
  - rewrite <- (Qceiling_Z n). by apply Qceiling_resp_le.
  - rewrite <- (Qfloor_Z n). by apply Qfloor_resp_le.
Qed.

End SummaryFacts.

(** ** Facts about the request helper *)

Section LogFacts.

Import Request.

Lemma trimEnd_cons_visible c t :
  is_space c = false → trimEnd (String c t) = String c (trimEnd t).
Proof. intros Hc. cbn [trimEnd]. rewrite Hc. by destruct (trimEnd t). Qed.

Lemma trimEnd_cons_space t :
  trimEnd (String " " t)
  = match trimEnd t with
    | EmptyString => EmptyString
    | r => String " " r
    end.
Proof. reflexivity. Qed.

Lemma trimStart_collapse b s :
  trimStart (collapse b s) = trimStart (collapse true s).
Proof.
  destruct s as [|c s]; [done|]. cbn [collapse].
  destruct (is_space c) eqn:Hc; [|done].
  destruct b; [done|]. reflexivity.
Qed.

Lemma collapse_true_head s : starts_with_space (collapse true s) = false.
Proof.
  induction s as [|c s IH]; [done|]. cbn [collapse].
  destruct (is_space c) eqn:Hc; [done|]. cbn [starts_with_space]. done.
Qed.

Lemma trimStart_id s : starts_with_space s = false → trimStart s = s.
Proof. destruct s as [|c s]; [done|]. cbn. by intros ->. Qed.

(** Trimming after collapsing is trimming the end of the collapsed text
    without its leading white space. *)
Lemma bodySingleLine_trimEnd body :
  bodySingleLine body = trimEnd (collapse true body).
Proof.
  unfold bodySingleLine, trim.
  by rewrite trimStart_collapse, trimStart_id by apply collapse_true_head.
Qed.

Lemma trimEnd_collapse_spaced b s :
  single_spaced (trimEnd (collapse b s)) = true
  ∧ (b = true → starts_with_space (trimEnd (collapse b s)) = false).
Proof.
  revert b. induction s as [|c s IH]; intros b; [done|].
  cbn [collapse]. destruct (is_space c) eqn:Hc.
  - destruct b; [apply IH|].
    rewrite trimEnd_cons_space.
    destruct (IH true) as [Hs Hh]. specialize (Hh eq_refl).
    destruct (trimEnd (collapse true s)) as [|d r]; [done|].
    split; [|done]. cbn [starts_with_space] in Hh.
    change (single_spaced (String " " (String d r)))
      with ((Ascii.eqb " " " " && negb (is_space d))
            && single_spaced (String d r)).
    by rewrite Hh, Hs.
  - rewrite trimEnd_cons_visible by done.
    destruct (IH false) as [Hs _].
    cbn [single_spaced starts_with_space]. rewrite Hc, Hs. done.
Qed.

Lemma visible_trimEnd s : visible (trimEnd s) = visible s.
Proof.
  induction s as [|c s IH]; [done|]. cbn [trimEnd visible].
  destruct (trimEnd s) as [|d r] eqn:E.
  - destruct (is_space c) eqn:Hc; cbn [visible]; rewrite ?Hc, <- IH; done.
  - cbn [visible] in *. by rewrite IH.
Qed.

Lemma visible_collapse b s : visible (collapse b s) = visible s.
Proof.
  revert b. induction s as [|c s IH]; intros b; [done|].
  cbn [collapse visible]. destruct (is_space c) eqn:Hc.
  - destruct b; [apply IH|]. cbn [visible]. by rewrite IH.
  - cbn [visible]. by rewrite Hc, IH.
Qed.

End LogFacts.

(** ** Execution summary *)

Section SummaryResults.

Import Report Assembly.
Local Open Scope Q_scope.

(** X16: in the execution summary, [passed] and [failed] add up to the
    total.  The failed count is rebuilt from the failure rate by rounding:
    when the rate is [k / n] for a total of [n > 0] requests, [failed] is
    exactly [k] and [passed] is [n - k]; with a rate between 0 and 1 it
    lies between 0 and the total.  With a total of zero nothing is divided:
    [failed] is 0 and the pass percentage is "0.00".  The start time is the
    current time less the run's duration, never later than now. *)
Theorem executive_summary_counts toLocaleString data now :
  let s := buildExecutiveSummary toLocaleString data now in
  let total := or_zero (metric_count (metrics data) "http_reqs") in
  let failRate :=
    or_zero (metric_values (metrics data) "http_req_failed"
             ≫= (.!! "rate")) in
  Executive.total s = total
  ∧ Executive.passed s + Executive.failed s == total
  ∧ (total == 0 → Executive.failed s == 0 ∧ Executive.passPct s = "0.00")
  ∧ (∀ n k : Z,
       total == inject_Z n → (0 < n)%Z →
       failRate == inject_Z k / inject_Z n →
       Executive.failed s == inject_Z k
       ∧ Executive.passed s == inject_Z (n - k)
       ∧ Executive.passPct s
         = toFixed2 (inject_Z (n - k) / inject_Z n * 100))
  ∧ (∀ n : Z,
       total == inject_Z n → (0 ≤ n)%Z → 0 <= failRate → failRate <= 1 →
       0 <= Executive.failed s ∧ Executive.failed s <= total)
  ∧ (0 <= or_zero (testRunDurationMs data) →
     (Executive.startTime s ≤ now)%Z).
Proof.
  intros s total failRate. unfold s, buildExecutiveSummary.
  cbn [Executive.total Executive.passed Executive.failed Executive.passPct
       Executive.startTime].
  fold total. fold failRate.
  split; [done|]. split; [ring|]. split; [|split; [|split]].
  - intros H0. split.
    + rewrite (Math_round_comp _ (inject_Z 0)) by (rewrite H0; ring).
      by rewrite Math_round_integer.
    + destruct (truthy total) eqn:E; [|done].
      apply truthy_true in E. by destruct E.
  - intros n k Hn Hpos Hrate.
    assert (¬ inject_Z n == 0) as Hn0.
    { change 0 with (inject_Z 0). rewrite inject_Z_injective. lia. }
    assert (Math_round (total * failRate) = k) as Hk.
    { rewrite (Math_round_comp _ (inject_Z k)); [apply Math_round_integer|].
      rewrite Hn, Hrate. by field. }
    rewrite Hk. split; [done|]. split.
    + rewrite Hn. unfold Z.sub. rewrite inject_Z_plus, inject_Z_opp. ring.
    + destruct (truthy total) eqn:E.
      * apply toFixed2_comp. rewrite Hn. unfold Z.sub.
        rewrite inject_Z_plus, inject_Z_opp. reflexivity.
      * apply truthy_false in E. rewrite Hn in E. by destruct Hn0.
  - intros n Hn Hpos Hlo Hhi.
    assert (0 <= total) as Htot.
    { rewrite Hn. change 0 with (inject_Z 0). by rewrite <- Zle_Qle. }
    split.
    + change 0 with (inject_Z 0). rewrite <- Zle_Qle.
      rewrite <- (Math_round_integer 0). apply Math_round_mono.
      change (inject_Z 0) with 0. by apply Qmult_le_0_compat.
    + apply Qle_trans with (inject_Z n); [|rewrite Hn; apply Qle_refl].
      rewrite <- Zle_Qle.
      rewrite <- (Math_round_integer n) at 1. apply Math_round_mono.
      apply Qle_trans with (total * 1); [|rewrite Hn; lra].
      apply Qmult_le_compat_nonneg; split; lra.
  - intros Hd. apply time_clip_le. lra.
Qed.

End SummaryResults.

(** ** Console tables *)

Section ConsoleResults.

Import Console.

(** X17: a console table is aligned: all the lines that [asciiTable]
    writes for one table have the same length, because every column is as
    wide as its key and its longest cell.  For no rows the only line is
    "No data available"; otherwise there are four lines more than rows. *)
Theorem asciiTable_aligned data :
  (∀ line1 line2,
     line1 ∈ asciiTable data → line2 ∈ asciiTable data →
     String.length line1 = String.length line2)
  ∧ (data = [] → asciiTable data = ["No data available"])
  ∧ (data ≠ [] → length (asciiTable data) = (length data + 4)%nat).
Proof.
  split; [|split].
  - destruct data as [|first rest].
    { intros line1 line2 ->%list_elem_of_singleton ->%list_elem_of_singleton.
      done. }
    unfold asciiTable. cbv zeta.
    set (data := first :: rest). set (keys := fst <$> first).
    assert (∀ line,
              line ∈ [separator (colWidths keys data);
                      table_line keys (colWidths keys data) id;
                      separator (colWidths keys data)]
                     ++ ((λ row, table_line keys (colWidths keys data)
                                   (cell row)) <$> data)
                     ++ [separator (colWidths keys data)] →
              String.length line
              = String.length (separator (colWidths keys data))) as Hlen.
    { intros line.
      rewrite !elem_of_app, !elem_of_cons, elem_of_nil, list_elem_of_fmap.
      intros [[->|[->|[->|[]]]]|[(row & -> & Hrow)|[->|[]]]]; try done.
      - apply table_line_length. intros key _.
        apply (proj1 (foldl_max_ge _ _)).
      - apply table_line_length. intros key _.
        apply (proj2 (foldl_max_ge _ _)).
        apply list_elem_of_fmap. by exists row. }
    intros line1 line2 H1 H2. by rewrite (Hlen _ H1), (Hlen _ H2).
  - by intros ->.
  - destruct data as [|first data']; [done|]. intros _.
    unfold asciiTable. cbv zeta.
    rewrite !length_app, length_fmap. cbn [length]. lia.
Qed.

End ConsoleResults.

(** ** Request helper *)

Section LogResults.

Import Request.

(** X18: the body that [makeRequest] logs is a single line.  Its only
    white space is the plain space (no line break, tab or no-break space
    is left), no two spaces are adjacent, and it neither starts nor ends
    with a space; and its other characters are those of the response body,
    all of them and in the same order. *)
Theorem bodySingleLine_single_line body :
  single_spaced (bodySingleLine body) = true
  ∧ starts_with_space (bodySingleLine body) = false
  ∧ visible (bodySingleLine body) = visible body.
Proof.
  rewrite bodySingleLine_trimEnd.
  destruct (trimEnd_collapse_spaced true body) as [Hs Hh].
  split; [done|]. split; [by apply Hh|].
  by rewrite visible_trimEnd, visible_collapse.
Qed.

End LogResults.

(** ** Facts about loops that may throw *)

Section LoopFacts.

Import Thresholds.

Context {A B : Type} (body : A → B → Completion A).

Lemma for_each_invariant (P : A → Prop) (l : list B) (a a' : A) :
  P a →
  (∀ a x a', x ∈ l → P a → body a x = Returns a' → P a') →
  for_each body a l = Returns a' → P a'.
Proof.
  revert a. induction l as [|x l IH]; intros a Ha Hstep; cbn [for_each].
  - by intros [= <-].
  - destruct (body a x) as [a1|] eqn:E; [|done]. cbn [bind].
    apply IH.
    + apply (Hstep a x); [apply elem_of_cons; auto|done..].
    + intros a2 y a3 Hy. apply Hstep, elem_of_cons. auto.
Qed.

(** What the turn of [x] establishes, and later turns keep, holds at the
    end. *)
Lemma for_each_established (Q : A → Prop) (l : list B) (x : B) (a a' : A) :
  x ∈ l →
  (∀ a a', body a x = Returns a' → Q a') →
  (∀ a y a', y ∈ l → Q a → body a y = Returns a' → Q a') →
  for_each body a l = Returns a' → Q a'.
Proof.
  revert a. induction l as [|y l IH]; intros a Hx Hest Hkeep;
    [by apply elem_of_nil in Hx|].
  cbn [for_each]. destruct (body a y) as [a1|] eqn:E; [|done]. cbn [bind].
  apply elem_of_cons in Hx as [->|Hx].
  - apply for_each_invariant.
    + by apply (Hest a).
    + intros a2 z a3 Hz. apply Hkeep, elem_of_cons. auto.
  - apply IH; [done|done|].
    intros a2 z a3 Hz. apply Hkeep, elem_of_cons. auto.
Qed.

Lemma for_each_returns (l : list B) (a : A) :
  (∀ a x, x ∈ l → ∃ a', body a x = Returns a') →
  ∃ a', for_each body a l = Returns a'.
Proof.
  revert a. induction l as [|x l IH]; intros a H; cbn [for_each]; [eauto|].
  destruct (H a x) as (a1 & ->); [apply elem_of_cons; auto|]. cbn [bind].
  apply IH. intros a2 y Hy. apply H, elem_of_cons. auto.
Qed.


End LoopFacts.

(** ** Facts about thresholds *)

Section ThresholdFacts.

Import Thresholds.

Context (number_text : Q → string) (SLA : gmap string SLA.Entry)
  (scenarioConfig : gmap string ScenarioConfig).

Lemma set_threshold_lookup api name th k :
  set_threshold number_text SLA api name th !! k
  = match SLA !! api ≫= SLA.p90 with
    | Some q =>
        if decide (k = name) then Some [p90_below number_text q] else th !! k
    | None => th !! k
    end.
Proof.
  unfold set_threshold. destruct (SLA !! api ≫= SLA.p90) as [q|]; [|done].
  case_decide as Hk.
  - subst. by rewrite lookup_insert_eq.
  - by rewrite lookup_insert_ne.
Qed.

(** The thresholds after the phase loop of one API and scenario. *)
Lemma phase_thresholds_lookup api scenarioKey (l : list nat) th k :
  foldl (λ th index,
           set_threshold number_text SLA api
             (duration_name (phase_key api scenarioKey index)) th)
    th l !! k
  = match SLA !! api ≫= SLA.p90 with
    | Some q =>
        if decide (k ∈ (λ i, duration_name (phase_key api scenarioKey i))
                       <$> l)
        then Some [p90_below number_text q] else th !! k
    | None => th !! k
    end.
Proof.
  revert th. induction l as [|i l IH]; intros th; cbn [foldl].
  - destruct (SLA !! api ≫= SLA.p90); [|done].
    rewrite decide_False; [done|]. by intros ?%elem_of_nil.
  - rewrite IH, set_threshold_lookup.
    destruct (SLA !! api ≫= SLA.p90) as [q|]; [|done].
    rewrite fmap_cons.
    repeat case_decide; try done; exfalso;
      rewrite elem_of_cons in *; tauto.
Qed.

(** One turn of the inner loop, for a scenario that has a
    configuration. *)
Lemma threshold_step_lookup api scenarioKey config th th' k :
  scenarioConfig !! scenarioKey = Some config →
  threshold_step number_text SLA scenarioConfig api th scenarioKey
  = Returns th' →
  th' !! k
  = match SLA !! api ≫= SLA.p90 with
    | Some q =>
        if decide (k ∈ duration_name (scenario_key api scenarioKey)
                       :: ((λ i, duration_name (phase_key api scenarioKey i))
                           <$> seq 0 (length (default [] (phases config)))))
        then Some [p90_below number_text q] else th !! k
    | None => th !! k
    end.
Proof.
  intros Hc. unfold threshold_step. rewrite Hc.
  destruct (phases config) as [ps|]; intros [= <-]; cbn [default].
  - rewrite phase_thresholds_lookup, set_threshold_lookup.
    destruct (SLA !! api ≫= SLA.p90) as [q|]; [|done].
    repeat case_decide; try done; exfalso;
      rewrite elem_of_cons in *; tauto.
  - rewrite set_threshold_lookup.
    destruct (SLA !! api ≫= SLA.p90) as [q|]; [|done].
    cbn [length seq fmap list_fmap].
    repeat case_decide; try done; exfalso;
      rewrite elem_of_cons, elem_of_nil in *; tauto.
Qed.

Lemma threshold_step_config api scenarioKey th th' :
  threshold_step number_text SLA scenarioConfig api th scenarioKey
  = Returns th' →
  ∃ config, scenarioConfig !! scenarioKey = Some config.
Proof.
  unfold threshold_step.
  destruct (scenarioConfig !! scenarioKey) as [config|]; [eauto|done].
Qed.

Lemma threshold_step_returns api scenarioKey th :
  is_Some (scenarioConfig !! scenarioKey) →
  ∃ th', threshold_step number_text SLA scenarioConfig api th scenarioKey
         = Returns th'.
Proof.
  intros [config Hc]. unfold threshold_step. rewrite Hc.
  destruct (phases config); eauto.
Qed.

Lemma generateThresholds_returns apis scenarios :
  (∀ s, s ∈ scenarios → is_Some (scenarioConfig !! s)) →
  ∃ thresholds,
    generateThresholds number_text SLA apis scenarios scenarioConfig
    = Returns thresholds.
Proof.
  intros Hall. unfold generateThresholds.
  apply for_each_returns. intros th api _.
  apply for_each_returns. intros th' s Hs.
  by apply threshold_step_returns, Hall.
Qed.


End ThresholdFacts.

(** ** Facts about the scenario sections *)

Section SectionFacts.

Import Report Assembly.


Lemma scenarioSections_returns data SLA apis cfg t0 scenarios :
  (∀ s, s ∈ scenarios → is_Some (cfg !! s)) →
  ∃ secs,
    scenarioSections data SLA apis cfg t0 scenarios = Returns secs
    ∧ Forall2 (λ s sec,
                 scenario_section data SLA apis cfg t0 s = Returns sec)
        scenarios secs.
Proof.
  induction scenarios as [|s scenarios IH]; intros Hall.
  - exists []. by split.
  - destruct IH as (secs & Hsecs & Hall2);
      [intros s' Hs'; apply Hall, elem_of_cons; auto|].
    destruct (Hall s) as [config Hc]; [apply elem_of_cons; auto|].
    cbn [scenarioSections]. rewrite Hsecs.
    unfold scenario_section at 1. rewrite Hc. cbn [bind].
    eexists. split; [reflexivity|].
    constructor; [|done]. unfold scenario_section. by rewrite Hc.
Qed.

End SectionFacts.

(** ** Thresholds and configuration *)

Section ThresholdResults.

Import Report Assembly Thresholds.

(** X19: the thresholds that a test script generates are thresholds on
    registered trends.  When [generateThresholds] returns, every key of
    the result is the name of the duration trend of a metric set that
    [initializeMetrics] registers for the same lists and configuration, at
    the scenario level or for a declared phase, and its value is the single
    expression "p(90)<" followed by the API's p90.  Conversely the duration
    trend of every registered metric set of an API with a p90 has a
    threshold. *)
Theorem thresholds_are_on_registered_trends number_text SLA apis scenarios
    scenarioConfig thresholds :
  generateThresholds number_text SLA apis scenarios scenarioConfig
  = Returns thresholds →
  let metrics := initializeMetrics apis scenarios scenarioConfig in
  let registered scenario api m :=
    scenario_slot metrics scenario api ≫= metric = Some m
    ∨ ∃ i, phase_metric metrics scenario api i = Some m in
  (∀ name v,
     thresholds !! name = Some v →
     ∃ api scenario q m,
       api ∈ apis ∧ scenario ∈ scenarios
       ∧ SLA !! api ≫= SLA.p90 = Some q
       ∧ v = [p90_below number_text q]
       ∧ registered scenario api m ∧ duration m = name)
  ∧ (∀ api scenario q m,
       api ∈ apis → scenario ∈ scenarios →
       SLA !! api ≫= SLA.p90 = Some q →
       registered scenario api m →
       is_Some (thresholds !! duration m)).
Proof.
  intros Hgen metrics registered.
  assert (∀ api scenario config name,
            api ∈ apis → scenario ∈ scenarios →
            scenarioConfig !! scenario = Some config →
            (name ∈ duration_name (scenario_key api scenario)
                    :: ((λ i, duration_name (phase_key api scenario i))
                        <$> seq 0 (length (default [] (phases config))))
             ↔ ∃ m, registered scenario api m ∧ duration m = name))
    as Hnames.
  { intros api scenario config name Ha Hs Hc.
    destruct (scenario_slot_registered apis scenarios scenarioConfig
                scenario api Hs Ha) as (slot & Hslot & Hm).
    assert (scenario_slot metrics scenario api ≫= metric
            = Some (newMetricSet (scenario_key api scenario))) as Hreg.
    { unfold metrics. rewrite Hslot. cbn [mbind option_bind]. by rewrite Hm. }
    assert (∀ i, phase_metric metrics scenario api i
                 = if decide (i < length (default [] (phases config)))%nat
                   then Some (newMetricSet (phase_key api scenario i))
                   else None) as Hphase.
    { intros i. unfold metrics. rewrite phase_metric_lookup.
      rewrite decide_True by done. rewrite Hc. cbn [mbind option_bind].
      destruct (phases config) as [ps|]; cbn [default length].
      - by rewrite (decide_True (P := api ∈ apis)) by done.
      - rewrite decide_False by lia. done. }
    rewrite elem_of_cons, list_elem_of_fmap. split.
    - intros [->|(i & -> & Hi)].
      + exists (newMetricSet (scenario_key api scenario)).
        split; [left; exact Hreg|done].
      + apply elem_of_seq in Hi.
        exists (newMetricSet (phase_key api scenario i)). split; [|done].
        right. exists i. rewrite Hphase, decide_True by lia. done.
    - intros (m & [Hm'|(i & Hi)] & <-).
      + rewrite Hreg in Hm'. injection Hm' as <-. by left.
      + rewrite Hphase in Hi. case_decide; [|done]. injection Hi as <-.
        right. exists i. split; [done|]. apply elem_of_seq. lia. }
  split.
  - revert Hgen. unfold generateThresholds.
    apply (for_each_invariant _
             (λ th, ∀ name v, th !! name = Some v →
                ∃ api scenario q m,
                  api ∈ apis ∧ scenario ∈ scenarios
                  ∧ SLA !! api ≫= SLA.p90 = Some q
                  ∧ v = [p90_below number_text q]
                  ∧ registered scenario api m ∧ duration m = name)).
    { intros name v. by rewrite lookup_empty. }
    intros th api th' Ha Hth.
    apply (for_each_invariant _
             (λ th, ∀ name v, th !! name = Some v →
                ∃ api scenario q m,
                  api ∈ apis ∧ scenario ∈ scenarios
                  ∧ SLA !! api ≫= SLA.p90 = Some q
                  ∧ v = [p90_below number_text q]
                  ∧ registered scenario api m ∧ duration m = name));
      [exact Hth|].
    clear th th' Hth. intros th scenario th' Hs Hth Hstep name v.
    destruct (threshold_step_config _ _ _ _ _ _ _ Hstep) as (config & Hc).
    rewrite (threshold_step_lookup _ _ _ _ _ config _ _ _ Hc Hstep).
    destruct (SLA !! api ≫= SLA.p90) as [q|] eqn:Hq; [|apply Hth].
    case_decide as Hin; [|apply Hth]. intros [= <-].
    apply (Hnames api scenario config name Ha Hs Hc) in Hin
      as (m & Hm & Hd).
    exists api, scenario, q, m. done.
  - intros api scenario q m Ha Hs Hq Hm. revert Hgen.
    unfold generateThresholds.
    assert (∀ api' th y th',
              is_Some (th !! duration m) →
              threshold_step number_text SLA scenarioConfig api' th y
              = Returns th' →
              is_Some (th' !! duration m)) as Hkeep.
    { intros api' th y th' Hsome Hstep.
      destruct (threshold_step_config _ _ _ _ _ _ _ Hstep) as (config & Hc).
      rewrite (threshold_step_lookup _ _ _ _ _ config _ _ _ Hc Hstep).
      destruct (SLA !! api' ≫= SLA.p90); [|done]. by case_decide. }
    apply (for_each_established _ (λ th, is_Some (th !! duration m))
             apis api); [done| |].
    + intros th th'.
      apply (for_each_established _ (λ th, is_Some (th !! duration m))
               scenarios scenario); [done| |].
      * intros th0 th1 Hstep.
        destruct (threshold_step_config _ _ _ _ _ _ _ Hstep)
          as (config & Hc).
        rewrite (threshold_step_lookup _ _ _ _ _ config _ _ _ Hc Hstep).
        rewrite Hq, decide_True; [done|].
        apply (Hnames api scenario config); [done..|]. by exists m.
      * intros th0 y th1 _. apply Hkeep.
    + intros th api' th' _ Hsome.
      apply (for_each_invariant _ (λ th, is_Some (th !! duration m)));
        [done|].
      intros th0 y th1 _. apply Hkeep.
Qed.

Lemma thresholds_are_on_registered_trends_witness :
  ∃ thresholds,
    generateThresholds (λ _, "250")
      {[ "home" := SLA.mkEntry (Some 250%Q) None None ]}
      ["home"] ["load"] example_config
    = Returns thresholds
    ∧ is_Some (thresholds !! "duration_home_load_phase1").
Proof.
  destruct (generateThresholds_returns (λ _, "250")
              {[ "home" := SLA.mkEntry (Some 250%Q) None None ]}
              example_config ["home"] ["load"]) as (thresholds & E);
    [intros s ->%list_elem_of_singleton; by eexists|].
  exists thresholds. split; [exact E|].
  refine (proj2 (thresholds_are_on_registered_trends _ _ _ _ _ _ E)
            "home" "load" 250%Q
            (newMetricSet (phase_key "home" "load" 1)) _ _ eq_refl _).
  - apply list_elem_of_singleton. reflexivity.
  - apply list_elem_of_singleton. reflexivity.
  - right. exists 1%nat. vm_compute. reflexivity.
Defined.



(** X21: when every listed scenario has a configuration the report is
    built: there is one scenario section per listed scenario, in the order
    of the list; its title is the configured name, or the scenario key when
    the name is missing or empty; its overall table is the scenario table;
    and it has a phase breakdown exactly when the configuration has a
    [phases] property, with one phase section per phase. *)
Theorem report_sections_follow_scenarios toLocaleString data SLA apis
    scenarios scenarioConfig now :
  (∀ s, s ∈ scenarios → is_Some (scenarioConfig !! s)) →
  ∃ content,
    reportContent toLocaleString data SLA apis scenarios scenarioConfig now
    = Returns content
    ∧ overall content
      = buildOverallAggregateTable (metrics data) SLA apis scenarios
    ∧ errorRows content
      = buildApiErrorCorrelation (metrics data) apis scenarios
    ∧ Forall2
        (λ s sec,
           ∃ config,
             scenarioConfig !! s = Some config
             ∧ scenarioName sec = or_string (name config) s
             ∧ overallRows sec
               = buildScenarioTable (metrics data) s SLA apis
             ∧ match phases config, breakdown sec with
               | Some ps, Some secs => length secs = length ps
               | None, None => True
               | _, _ => False
               end)
        scenarios (sections content).
Proof.
  intros Hall. unfold reportContent. cbv zeta.
  destruct (scenarioSections_returns (metrics data) SLA apis scenarioConfig
              (Executive.startTime
                 (buildExecutiveSummary toLocaleString data now))
              scenarios Hall) as (secs & -> & Hsecs).
  cbn [bind]. eexists. split; [reflexivity|].
  cbn [overall errorRows sections]. split; [done|]. split; [done|].
  eapply Forall2_impl; [exact Hsecs|]. cbn beta.
  intros s sec (config & Hc & Hn & Ho & Hb)%scenario_section_inv.
  exists config. rewrite Hb. repeat split; try done.
  destruct (phases config); cbn [fmap option_fmap option_map]; [|done].
  apply phase_sections_length.
Qed.

Lemma report_sections_follow_scenarios_witness :
  ∃ content,
    reportContent (λ _, "") (mkRunData None ∅) None ["home"] ["load"]
      example_config 0
    = Returns content
    ∧ length (sections content) = 1%nat.
Proof.
  destruct (report_sections_follow_scenarios (λ _, "") (mkRunData None ∅)
              None ["home"] ["load"] example_config 0)
    as (content & Heq & _ & _ & Hsecs);
    [intros s ->%list_elem_of_singleton; by eexists|].
  exists content. split; [exact Heq|].
  by rewrite <- (Forall2_length _ _ _ Hsecs).
Defined.

End ThresholdResults.

(** ** Facts about means and statuses *)

Section StatusFacts.

Import Report Assembly.
Local Open Scope Q_scope.



(** The status of a row with traffic whose API has a p90 threshold. *)
Lemma summaryRow_status_threshold SLA a e t mn mx av q90 q95 q99 tot fl :
  SLA ≫= (.!! a) = Some e → SLA.p90 e = Some t → 0 < tot →
  status (summaryRow SLA a mn mx av q90 q95 q99 tot fl)
  = if Qlt_le_dec t q90 then FAIL else PASS.
Proof.
  intros He Ht Htot. unfold summaryRow. cbn [status].
  rewrite He. cbn [mbind option_bind]. rewrite Ht.
  destruct (Qlt_le_dec 0 tot); [|lra].
  by destruct (Qlt_le_dec t q90).
Qed.

Lemma summaryRow_total SLA a mn mx av q90 q95 q99 tot fl :
  total (summaryRow SLA a mn mx av q90 q95 q99 tot fl) = tot.
Proof. reflexivity. Qed.

Lemma direct_row_total data SLA a key :
  total (direct_row data SLA a key)
  = or_zero (metric_count data (count_name key)).
Proof.
  unfold direct_row. by destruct (metric_values data (duration_name key)).
Qed.

End StatusFacts.

(** ** Statuses *)

Section StatusResults.

Import Report Assembly Thresholds.
Local Open Scope Q_scope.

(** X22: the report shows "No data for this phase" in place of the phase
    table exactly when no listed API has a positive request count for that
    phase in the summary; otherwise it shows the phase table with one row
    for every listed API, those without requests included. *)
Theorem phase_section_rows data SLA apis scenarioConfig startTime scenario
    s secs i sec :
  scenario_section data SLA apis scenarioConfig startTime scenario
  = Returns s →
  breakdown s = Some secs → secs !! i = Some sec →
  (phaseRows sec = None ↔
   ∀ a, a ∈ apis →
        ¬ 0 < or_zero (metric_count data
                         (count_name (phase_key a scenario i))))
  ∧ (∀ rows, phaseRows sec = Some rows →
             rows = buildPhaseTable data scenario i SLA apis
             ∧ length rows = length apis).
Proof.
  intros (config & Hc & _ & _ & Hb)%scenario_section_inv. rewrite Hb.
  destruct (phases config) as [ps|]; [|done].
  intros Hsecs. apply (inj Some) in Hsecs. subst secs.
  intros (p & _ & _ & _ & _ & Hrows)%phase_sections_lookup.
  rewrite Nat.add_0_l in Hrows. cbv zeta in Hrows. rewrite Hrows.
  destruct (existsb _ _) eqn:E.
  - apply existsb_exists in E as (row & Hrow & Hpos).
    apply list_elem_of_In in Hrow.
    rewrite buildPhaseTable_rows in Hrow.
    apply list_elem_of_fmap in Hrow as (a & -> & Ha).
    rewrite direct_row_total in Hpos.
    split.
    + split; [done|]. intros Hnone. destruct (Hnone a Ha).
      by destruct (Qlt_le_dec 0 _).
    + intros rows [= <-]. split; [done|].
      by rewrite buildPhaseTable_rows, length_fmap.
  - split; [|done]. split; [|done]. intros _ a Ha Hpos.
    assert (existsb (λ r, if Qlt_le_dec 0 (total r) then true else false)
              (buildPhaseTable data scenario i SLA apis) = true) as E';
      [|by rewrite E in E'].
    apply existsb_exists.
    exists (direct_row data SLA a (phase_key a scenario i)). split.
    + apply list_elem_of_In. rewrite buildPhaseTable_rows.
      apply list_elem_of_fmap. by exists a.
    + rewrite direct_row_total. by destruct (Qlt_le_dec 0 _); [|lra].
Qed.

Lemma phase_section_rows_witness :
  ∃ s secs sec,
    scenario_section Examples.data None ["home"] example_config 0 "load"
    = Returns s
    ∧ breakdown s = Some secs ∧ secs !! 0%nat = Some sec
    ∧ phaseRows sec = None.
Proof.
  eexists _, _, _. split; [reflexivity|]. split; [reflexivity|].
  split; [reflexivity|].
  apply (proj1 (phase_section_rows Examples.data None ["home"]
                  example_config 0 "load" _ _ 0 _ eq_refl eq_refl eq_refl)).
  intros a ->%list_elem_of_singleton. vm_compute. discriminate.
Defined.

(** X23: the status of a row and the k6 threshold on the same trend
    disagree at the bound.  For an API with a p90 threshold and traffic,
    the scenario table says FAIL exactly when the observed p90 is above the
    threshold, while the expression that [generateThresholds] writes,
    "p(90)<N", holds only below it.  So when the observed p90 equals the
    threshold, and only then, the row says PASS although the threshold is
    crossed. *)
Theorem status_passes_at_the_threshold data SLA apis scenario k a e t row :
  apis !! k = Some a → SLA ≫= (.!! a) = Some e → SLA.p90 e = Some t →
  buildScenarioTable data scenario SLA apis !! k = Some row →
  0 < total row →
  let observed := observed_p90 data (scenario_key a scenario) in
  (status row = FAIL ↔ t < observed)
  ∧ (status row = PASS ↔ observed <= t)
  ∧ (p90_below_holds observed t = true ↔ observed < t)
  ∧ (status row = PASS ∧ p90_below_holds observed t = false
     ↔ observed == t).
Proof.
  intros Hk He Ht Hrow Htot observed.
  rewrite buildScenarioTable_rows, list_lookup_fmap, Hk in Hrow.
  injection Hrow as <-.
  destruct (direct_row_summary data SLA a (scenario_key a scenario))
    as (mn & mx & av & q95 & q99 & Hrow).
  rewrite Hrow in *. rewrite summaryRow_total in Htot.
  rewrite (summaryRow_status_threshold SLA a e t) by done.
  fold observed. unfold p90_below_holds.
  destruct (Qlt_le_dec t observed), (Qlt_le_dec observed t);
    repeat split; try done; try lra; intros; try lra;
    try (by destruct H); try tauto.
Qed.

Lemma status_passes_at_the_threshold_witness :
  ∃ row,
    buildScenarioTable Examples.data "load"
      (Some {[ "home" := SLA.mkEntry (Some 100) None None ]}) ["home"]
    !! 0%nat = Some row
    ∧ status row = PASS
    ∧ p90_below_holds (observed_p90 Examples.data "home_load") 100 = false.
Proof.
  eexists. split; [reflexivity|].
  refine (proj2 (proj2 (proj2 (proj2
    (status_passes_at_the_threshold Examples.data
       (Some {[ "home" := SLA.mkEntry (Some 100) None None ]}) ["home"]
       "load" 0 "home" (SLA.mkEntry (Some 100) None None) 100 _
       _ _ _ _ _)))) _); reflexivity.
Defined.



End StatusResults.
